(** * react-ripple-effect: the event bus and its call-rate wrappers

    A shallow embedding of [src/lib/EventDriver.ts] (both the synchronous
    variant and the Promise-returning variant of [trigger]) and of the
    debounce / throttle wrappers and the effect cleanup of
    [src/hooks/useMonitorEvent.ts].

    JavaScript values are a small tagged union, the [Map] and the [Set]
    objects of the driver are modelled with the data the ECMAScript
    specification gives them (an insertion-ordered entry list; a [Set]
    keeps an [empty] marker where an element was deleted, which is what
    makes [Set.prototype.forEach] a live iteration), and [Set] objects
    live in an object store because [trigger] keeps a reference to the
    [Set] it iterates while callbacks mutate the driver. *)

From Stdlib Require Import ZArith Lia.
From stdpp Require Import base list strings.

Open Scope Z_scope.

(** ** JavaScript values *)

Inductive JsValue :=
| VUndefined
| VNull
| VBool (b : bool)
| VNumber (n : Z)            (* integral numbers only *)
| VString (s : string)
| VSymbol (id : nat)
| VBigInt (n : Z)
| VFunction (f : nat)        (* a function object, by identity *)
| VObject (o : nat) (str : bool).
    (* any other object, by identity; [str]: its conversion to a string
       returns (as the inherited [toString] does), otherwise it throws
       (as for [Object.create(null)]) *)

Inductive JsType :=
| TUndefined | TObject | TBoolean | TNumber | TString | TSymbol | TBigInt
| TFunction.

#[global] Instance JsValue_eq_dec : EqDecision JsValue.
Proof. solve_decision. Defined.

#[global] Instance JsType_eq_dec : EqDecision JsType.
Proof. solve_decision. Defined.

(** [typeof v] *)
Definition typeof (v : JsValue) : JsType :=
  match v with
  | VUndefined => TUndefined
  | VNull => TObject
  | VBool _ => TBoolean
  | VNumber _ => TNumber
  | VString _ => TString
  | VSymbol _ => TSymbol
  | VBigInt _ => TBigInt
  | VFunction _ => TFunction
  | VObject _ _ => TObject
  end.

(** [ToBoolean v], so that [!v] is [negb (truthy v)] *)
Definition truthy (v : JsValue) : bool :=
  match v with
  | VUndefined | VNull => false
  | VBool b => b
  | VNumber n => negb (n =? 0)
  | VString s => negb (bool_decide (s = ""%string))
  | VBigInt n => negb (n =? 0)
  | VSymbol _ | VFunction _ | VObject _ _ => true
  end.

(** Whether [`${v}`] returns: the template literal of an error message
    converts the value it quotes to a string, and that conversion throws
    for a Symbol and for an object without a usable [toString]. *)
Definition printable (v : JsValue) : bool :=
  match v with
  | VSymbol _ => false
  | VObject _ str => str
  | _ => true
  end.

(** What a [throw] carries.  The two [Error]s of the driver differ only in
    their message; the message text is not modelled, the value it quotes
    is kept. *)
Inductive JsError :=
| InvalidKey (got : JsValue)          (* "Invalid event key. ..." *)
| CannotConvert (got : JsValue)
    (* what the conversion of [got] to a string throws; for a Symbol,
       TypeError: Cannot convert a Symbol value to a string *)
| InvalidCallback (got : JsType)      (* "Invalid callback. ..." *)
| NotCallable                         (* TypeError: callback is not a function *)
| UserError (v : JsValue).            (* whatever a listener throws *)

#[global] Instance JsError_eq_dec : EqDecision JsError.
Proof. solve_decision. Defined.

(** Completion of a call: it returns a value or throws. *)
Inductive Completion (A : Type) :=
| Normal (a : A)
| Throw (e : JsError).
Arguments Normal {A} a.
Arguments Throw {A} e.

(** ** [Set] objects: the [[SetData]] list of ECMAScript *)

Module JSSet.

Abbreviation SetData := (list (option JsValue)).

Definition values (s : SetData) : list JsValue := omap id s.

Definition has (s : SetData) (v : JsValue) : bool :=
  bool_decide (Some v ∈ s).

(** [s.add(v)]: appended at the end unless already present *)
Definition add (s : SetData) (v : JsValue) : SetData :=
  if has s v then s else s ++ [Some v].

(** [s.delete(v)]: the entry becomes [empty], positions are kept *)
Definition delete (s : SetData) (v : JsValue) : SetData :=
  (λ e, if decide (e = Some v) then None else e) <$> s.

(** [s.clear()]: every entry becomes [empty] *)
Definition clear (s : SetData) : SetData := (λ _, None) <$> s.

(** [s.size] *)
Definition size (s : SetData) : Z := Z.of_nat (length (values s)).

End JSSet.

(** ** [Map] objects: insertion-ordered entries

    No user code runs while the driver iterates its [Map], so deleted
    entries need no marker here. *)

Module JSMap.

Section Map.
Context {V : Type}.

Abbreviation MapData := (list (JsValue * V)).

Fixpoint get (m : MapData) (k : JsValue) : option V :=
  match m with
  | [] => None
  | (k', v) :: m' => if decide (k' = k) then Some v else get m' k
  end.

(** [m.set(k, v)]: an existing key keeps its position *)
Fixpoint set (m : MapData) (k : JsValue) (v : V) : MapData :=
  match m with
  | [] => [(k, v)]
  | (k', v') :: m' =>
      if decide (k' = k) then (k', v) :: m' else (k', v') :: set m' k v
  end.

Definition delete (m : MapData) (k : JsValue) : MapData :=
  filter (λ e, e.1 ≠ k) m.

Definition keys (m : MapData) : list JsValue := m.*1.

End Map.

End JSMap.

(** ** The driver *)

(** [listeners] is the private [Map] field; its values are references into
    [sets], the store of the [Set] objects the driver has created so far
    (a [Set] stays in the store after its key is deleted: an iteration in
    progress may still hold it). *)
Record EventDriver := mkDriver {
  listeners : list (JsValue * nat);
  sets : list JSSet.SetData;
}.

(** [new EventDriver()] *)
Definition new_driver : EventDriver := mkDriver [] [].

(** Dereference a [Set] reference.  References held by the driver are
    always allocated; the default is never reached from [new_driver]. *)
Definition deref (ss : list JSSet.SetData) (l : nat) : JSSet.SetData :=
  default [] (ss !! l).

(** The message of the [Error] is built first, so a key that cannot be
    converted to a string makes the template literal throw before
    [new Error] is reached. *)
Definition _invalidateKey (key : JsValue) : option JsError :=
  if negb (truthy key) || negb (bool_decide (typeof key = TString))
  then if printable key then Some (InvalidKey key)
       else Some (CannotConvert key)
  else None.

Definition _invalidateCallback (callback : JsValue) : option JsError :=
  if negb (bool_decide (typeof callback = TFunction))
  then Some (InvalidCallback (typeof callback))
  else None.

(** The closure [subscribe] returns captures [key] and [callback]. *)
Record Handle := mkHandle { h_key : JsValue; h_callback : JsValue }.

Definition subscribe (d : EventDriver) (key callback : JsValue)
  : Completion (EventDriver * Handle) :=
  match _invalidateKey key with
  | Some e => Throw e
  | None =>
    match _invalidateCallback callback with
    | Some e => Throw e
    | None =>
      match JSMap.get (listeners d) key with
      | None =>
          (* this.listeners.set(key, new Set([callback])) *)
          let l := length (sets d) in
          Normal (mkDriver (JSMap.set (listeners d) key l)
                           (sets d ++ [[Some callback]]),
                  mkHandle key callback)
      | Some l =>
          (* listeners.add(callback) *)
          Normal (mkDriver (listeners d)
                           (alter (λ s, JSSet.add s callback) l (sets d)),
                  mkHandle key callback)
      end
    end
  end.

(** Invoking the closure returned by [subscribe]. *)
Definition unsubscribe (h : Handle) (d : EventDriver) : EventDriver :=
  match JSMap.get (listeners d) (h_key h) with
  | None => d
  | Some l =>
      let ss := alter (λ s, JSSet.delete s (h_callback h)) l (sets d) in
      if JSSet.size (deref ss l) =? 0
      then mkDriver (JSMap.delete (listeners d) (h_key h)) ss
      else mkDriver (listeners d) ss
  end.

Definition cleanup (d : EventDriver) : EventDriver :=
  mkDriver []
    (foldl (λ ss e, alter JSSet.clear e.2 ss) (sets d) (listeners d)).

Definition getListenerCount (d : EventDriver) (key : JsValue) : Z :=
  match JSMap.get (listeners d) key with
  | Some l => JSSet.size (deref (sets d) l)
  | None => 0
  end.

Definition hasListeners (d : EventDriver) (key : JsValue) : bool :=
  getListenerCount d key >? 0.

Definition getEventKeys (d : EventDriver) : list JsValue :=
  JSMap.keys (listeners d).

(** ** Listeners as the dispatcher sees them

    A listener is a JavaScript function; what the dispatcher can observe
    of one call is which driver operations the body performs (it may hold
    the driver and unsubscribe handles) and how the call completes. *)

Inductive Action :=
| ASubscribe (key callback : JsValue)     (* driver.subscribe(key, callback) *)
| AUnsubscribe (h : Handle)               (* calling an unsubscribe handle *)
| ACleanup.                               (* driver.cleanup() *)

Inductive Outcome :=
| Returns (v : JsValue)          (* a value that is not a Promise *)
| ReturnsPromise (p : nat)       (* a Promise object, by identity *)
| Throws (e : JsError).

Record Script := mkScript { actions : list Action; outcome : Outcome }.

(** The function table: the body of function [f] applied to [args]. *)
Definition Env := nat → list JsValue → Script.

(** An exception raised by a driver call inside the body propagates out of
    the listener. *)
Fixpoint run_actions (acts : list Action) (d : EventDriver)
  : EventDriver * option JsError :=
  match acts with
  | [] => (d, None)
  | ASubscribe key callback :: rest =>
      match subscribe d key callback with
      | Normal (d', _) => run_actions rest d'
      | Throw e => (d, Some e)
      end
  | AUnsubscribe h :: rest => run_actions rest (unsubscribe h d)
  | ACleanup :: rest => run_actions rest (cleanup d)
  end.

(** [callback(...args)] *)
Definition call (env : Env) (callback : JsValue) (args : list JsValue)
    (d : EventDriver) : EventDriver * Outcome :=
  match callback with
  | VFunction f =>
      let s := env f args in
      match run_actions (actions s) d with
      | (d', Some e) => (d', Throws e)
      | (d', None) => (d', outcome s)
      end
  | _ => (d, Throws NotCallable)
  end.

(** ** Promises

    Only the combinators [trigger] uses.  A promise returned by a listener
    is opaque: its state is read from a world [w], a snapshot of which of
    them have settled.  Derived promises are given their settled state as
    a function of the states of their inputs; the microtask turns a
    reaction takes are not modelled. *)

Inductive PState := Pending | Fulfilled | Rejected.

#[global] Instance PState_eq_dec : EqDecision PState.
Proof. solve_decision. Defined.

#[warnings="-register-all"]
Inductive Promise :=
| PResolve                      (* Promise.resolve() *)
| PListener (p : nat)           (* the Promise a listener returned *)
| PCatch (q : Promise)          (* q.catch(error => console.error(...)) *)
| PAll (qs : list Promise)      (* Promise.all(qs) *)
| PThen (q : Promise).          (* q.then(() => undefined) *)

Definition all_state (sts : list PState) : PState :=
  if bool_decide (Rejected ∈ sts) then Rejected
  else if bool_decide (Pending ∈ sts) then Pending
  else Fulfilled.

Fixpoint pstate (w : nat → PState) (q : Promise) : PState :=
  match q with
  | PResolve => Fulfilled
  | PListener p => w p
  | PCatch q' =>
      match pstate w q' with
      | Rejected => Fulfilled      (* the handler returns undefined *)
      | s => s
      end
  | PAll qs => all_state (map (pstate w) qs)
  | PThen q' => pstate w q'
  end.

(** ** [trigger], Promise-returning variant *)

Inductive ConsoleEntry :=
| ErrorInCallback (key : JsValue) (error : JsError).
    (* console.error(`Error in callback for event "${key}":`, error) *)

(** What one run of [trigger] has done so far. *)
Record Dispatch := mkDispatch {
  driver : EventDriver;
  invoked : list (JsValue * list JsValue * Outcome);
                                  (* callee, arguments, how it completed *)
  promises : list Promise;                   (* the local [promises] array *)
  console : list ConsoleEntry;
}.

(** The body of the arrow function passed to [listeners.forEach]. *)
Definition on_listener (env : Env) (key : JsValue) (args : list JsValue)
    (callback : JsValue) (st : Dispatch) : Dispatch :=
  let '(d', out) := call env callback args (driver st) in
  let inv := invoked st ++ [(callback, args, out)] in
  match out with
  | Returns _ => mkDispatch d' inv (promises st) (console st)
  | ReturnsPromise p =>
      mkDispatch d' inv (promises st ++ [PCatch (PListener p)]) (console st)
  | Throws e =>
      mkDispatch d' inv (promises st) (console st ++ [ErrorInCallback key e])
  end.

(** [Set.prototype.forEach] on the [Set] object at [l], from entry
    [index] on: the entry list is read again at every step, [empty]
    entries are skipped, entries appended meanwhile are reached. *)
Fixpoint forEach (fuel : nat) (env : Env) (key : JsValue)
    (args : list JsValue) (l : nat) (index : nat) (st : Dispatch)
  : option Dispatch :=
  match fuel with
  | O => None
  | S fuel' =>
      match deref (sets (driver st)) l !! index with
      | None => Some st
      | Some None => forEach fuel' env key args l (S index) st
      | Some (Some callback) =>
          forEach fuel' env key args l (S index)
                  (on_listener env key args callback st)
      end
  end.

Record Triggered := mkTriggered {
  after : EventDriver;
  calls : list (JsValue * list JsValue * Outcome);
  reported : list ConsoleEntry;
  returned : Promise;
}.

(** [None]: the fuel ran out before the loop ended (a listener may keep
    adding listeners to the set that is being iterated). *)
Definition trigger (fuel : nat) (env : Env) (d : EventDriver)
    (key : JsValue) (args : list JsValue) : option (Completion Triggered) :=
  match _invalidateKey key with
  | Some e => Some (Throw e)
  | None =>
    match JSMap.get (listeners d) key with
    | None => Some (Normal (mkTriggered d [] [] PResolve))
    | Some l =>
      match forEach fuel env key args l 0 (mkDispatch d [] [] []) with
      | None => None
      | Some st =>
          Some (Normal (mkTriggered (driver st) (invoked st) (console st)
                          (if (0 <? length (promises st))%nat
                           then PThen (PAll (promises st))
                           else PResolve)))
      end
    end
  end.

(** ** [trigger], synchronous variant ([src/lib/EventDriver.ts])

    The same loop without the [promises] array; the call returns
    [undefined]. *)

Module Legacy.

Record Dispatch := mkDispatch {
  driver : EventDriver;
  invoked : list (JsValue * list JsValue * Outcome);
  console : list ConsoleEntry;
}.

Definition on_listener (env : Env) (key : JsValue) (args : list JsValue)
    (callback : JsValue) (st : Dispatch) : Dispatch :=
  let '(d', out) := call env callback args (driver st) in
  let inv := invoked st ++ [(callback, args, out)] in
  match out with
  | Throws e => mkDispatch d' inv (console st ++ [ErrorInCallback key e])
  | _ => mkDispatch d' inv (console st)
  end.

Fixpoint forEach (fuel : nat) (env : Env) (key : JsValue)
    (args : list JsValue) (l : nat) (index : nat) (st : Dispatch)
  : option Dispatch :=
  match fuel with
  | O => None
  | S fuel' =>
      match deref (sets (driver st)) l !! index with
      | None => Some st
      | Some None => forEach fuel' env key args l (S index) st
      | Some (Some callback) =>
          forEach fuel' env key args l (S index)
                  (on_listener env key args callback st)
      end
  end.

Definition trigger (fuel : nat) (env : Env) (d : EventDriver)
    (key : JsValue) (args : list JsValue) : option (Completion Dispatch) :=
  match _invalidateKey key with
  | Some e => Some (Throw e)
  | None =>
    match JSMap.get (listeners d) key with
    | None => Some (Normal (mkDispatch d [] []))
    | Some l =>
      match forEach fuel env key args l 0 (mkDispatch d [] []) with
      | None => None
      | Some st => Some (Normal st)
      end
    end
  end.

End Legacy.

(** ** Timers and the call-rate wrappers ([src/hooks/useMonitorEvent.ts])

    The function objects of the hook live in a table: a handler supplied
    by the component, or a wrapper together with the variables its
    closure owns.  Time is in milliseconds. *)

Inductive Fn :=
| FUser
| FDebounced (callback : nat) (delay : Z) (timeoutId : option nat)
| FThrottled (callback : nat) (delay : Z) (lastCallTime : Z)
             (timeoutId : option nat) (pendingArgs : option (list JsValue)).

(** The arrow functions handed to [setTimeout]. *)
Inductive Closure :=
| DebouncedTimeout (self : nat) (args : list JsValue)
| ThrottledTimeout (self : nat).

Record Timer := mkTimer { timer_id : nat; fire_at : Z; closure : Closure }.

Record Runtime := mkRuntime {
  clock : Z;                                    (* Date.now() *)
  timers : list Timer;                          (* scheduled, oldest first *)
  next_timer : nat;
  functions : list Fn;
  delivered : list (nat * Z * list JsValue);    (* handler, time, arguments *)
}.

(** The longest delay a timer takes, 2^31 - 1 ms. *)
Definition TIMEOUT_MAX : Z := 2147483647.

(** The time a timer set with [delay] waits.  The delay is a 32-bit
    quantity: Node.js, where the tests of the repository run, replaces a
    delay below 1 or above [TIMEOUT_MAX] by 1 (a browser reduces it to 32
    bits instead; neither waits for a delay above [TIMEOUT_MAX]).  The
    wrappers below never pass a delay below 1: the hook wraps for a
    positive delay only, and the throttled wrapper schedules for the rest
    of a window. *)
Definition timer_delay (delay : Z) : Z :=
  if (1 <=? delay) && (delay <=? TIMEOUT_MAX) then delay else 1.

Definition setTimeout (c : Closure) (delay : Z) (rt : Runtime)
  : nat * Runtime :=
  (next_timer rt,
   mkRuntime (clock rt)
             (timers rt ++ [mkTimer (next_timer rt)
                                    (clock rt + timer_delay delay) c])
             (S (next_timer rt)) (functions rt) (delivered rt)).

Definition clearTimeout (id : nat) (rt : Runtime) : Runtime :=
  mkRuntime (clock rt) (filter (λ t, timer_id t ≠ id) (timers rt))
            (next_timer rt) (functions rt) (delivered rt).

Definition set_fn (f : nat) (fn : Fn) (rt : Runtime) : Runtime :=
  mkRuntime (clock rt) (timers rt) (next_timer rt)
            (<[f := fn]> (functions rt)) (delivered rt).

(** A call that reaches a handler of the component. *)
Definition deliver (callback : nat) (args : list JsValue) (rt : Runtime)
  : Runtime :=
  mkRuntime (clock rt) (timers rt) (next_timer rt) (functions rt)
            (delivered rt ++ [(callback, clock rt, args)]).

Definition createDebouncedCallback (callback : nat) (delay : Z)
    (rt : Runtime) : nat * Runtime :=
  (length (functions rt),
   mkRuntime (clock rt) (timers rt) (next_timer rt)
             (functions rt ++ [FDebounced callback delay None])
             (delivered rt)).

Definition createThrottledCallback (callback : nat) (delay : Z)
    (rt : Runtime) : nat * Runtime :=
  (length (functions rt),
   mkRuntime (clock rt) (timers rt) (next_timer rt)
             (functions rt ++ [FThrottled callback delay 0 None None])
             (delivered rt)).

(** The function [createDebouncedCallback] returns, called with [args].
    [f] is that function itself; [timeoutId] is the variable of its
    closure, kept in the table entry of [f]. *)
Definition debounced (f callback : nat) (delay : Z) (timeoutId : option nat)
    (args : list JsValue) (rt : Runtime) : Runtime :=
  let rt1 := match timeoutId with
             | Some id => clearTimeout id rt
             | None => rt
             end in
  let '(id, rt2) := setTimeout (DebouncedTimeout f args) delay rt1 in
  set_fn f (FDebounced callback delay (Some id)) rt2.

(** The body of the timer of a debounced wrapper:
    [callback(...args); timeoutId = null]. *)
Definition debounced_timeout (f : nat) (args : list JsValue) (rt : Runtime)
  : Runtime :=
  match functions rt !! f with
  | Some (FDebounced callback delay _) =>
      set_fn f (FDebounced callback delay None) (deliver callback args rt)
  | _ => rt
  end.

(** The function [createThrottledCallback] returns, called with [args]. *)
Definition throttled (f callback : nat) (delay lastCallTime : Z)
    (timeoutId : option nat) (pendingArgs : option (list JsValue))
    (args : list JsValue) (rt : Runtime) : Runtime :=
  let now := clock rt in
  let timeSinceLastCall := now - lastCallTime in
  if timeSinceLastCall >=? delay then
    (* lastCallTime = now; callback(...args); *)
    let rt1 := deliver callback args rt in
    match timeoutId with
    | Some id =>
        (* clearTimeout(timeoutId); timeoutId = null; pendingArgs = null *)
        set_fn f (FThrottled callback delay now None None)
               (clearTimeout id rt1)
    | None =>
        set_fn f (FThrottled callback delay now None pendingArgs) rt1
    end
  else
    (* pendingArgs = args; *)
    match timeoutId with
    | None =>
        let '(id, rt1) :=
          setTimeout (ThrottledTimeout f) (delay - timeSinceLastCall) rt in
        set_fn f (FThrottled callback delay lastCallTime (Some id)
                             (Some args)) rt1
    | Some _ =>
        set_fn f (FThrottled callback delay lastCallTime timeoutId
                             (Some args)) rt
    end.

(** The body of the timer of a throttled wrapper. *)
Definition throttled_timeout (f : nat) (rt : Runtime) : Runtime :=
  match functions rt !! f with
  | Some (FThrottled callback delay lastCallTime _ (Some args)) =>
      (* lastCallTime = Date.now(); callback(...pendingArgs);
         pendingArgs = null; timeoutId = null *)
      set_fn f (FThrottled callback delay (clock rt) None None)
             (deliver callback args rt)
  | Some (FThrottled callback delay lastCallTime _ None) =>
      set_fn f (FThrottled callback delay lastCallTime None None) rt
  | _ => rt
  end.

(** Calling function [f] with [args]. *)
Definition apply_fn (f : nat) (args : list JsValue) (rt : Runtime)
  : Runtime :=
  match functions rt !! f with
  | Some (FDebounced callback delay timeoutId) =>
      debounced f callback delay timeoutId args rt
  | Some (FThrottled callback delay lastCallTime timeoutId pendingArgs) =>
      throttled f callback delay lastCallTime timeoutId pendingArgs args rt
  | Some FUser | None => deliver f args rt
  end.

(** Running the body of a timer that fires. *)
Definition fire (c : Closure) (rt : Runtime) : Runtime :=
  match c with
  | DebouncedTimeout f args => debounced_timeout f args rt
  | ThrottledTimeout f => throttled_timeout f rt
  end.

(** The timer that fires next: the earliest deadline, the older timer on
    a tie. *)
Fixpoint earliest (q : list Timer) : option Timer :=
  match q with
  | [] => None
  | t :: q' =>
      match earliest q' with
      | Some t' => if fire_at t <=? fire_at t' then Some t else Some t'
      | None => Some t
      end
  end.

(** Fire, in order, the timers due up to [target].  No timer body above
    schedules a timer, so [fuel] = number of scheduled timers is enough. *)
Fixpoint run_due (fuel : nat) (target : Z) (rt : Runtime) : Runtime :=
  match fuel with
  | O => rt
  | S fuel' =>
      match earliest (timers rt) with
      | Some t =>
          if fire_at t <=? target then
            run_due fuel' target
              (fire (closure t)
                 (mkRuntime (Z.max (clock rt) (fire_at t))
                            (filter (λ t', timer_id t' ≠ timer_id t)
                                    (timers rt))
                            (next_timer rt) (functions rt) (delivered rt)))
          else rt
      | None => rt
      end
  end.

(** Let time pass until [target]. *)
Definition advance (target : Z) (rt : Runtime) : Runtime :=
  let rt' := run_due (length (timers rt)) target rt in
  mkRuntime (Z.max (clock rt') target) (timers rt') (next_timer rt')
            (functions rt') (delivered rt').

(** A run of calls to one function, each at its own time. *)
Fixpoint play (f : nat) (cs : list (Z * list JsValue)) (rt : Runtime)
  : Runtime :=
  match cs with
  | [] => rt
  | (t, args) :: cs' => play f cs' (apply_fn f args (advance t rt))
  end.


(** A runtime at time [now] whose table holds [n] handlers of the
    component, with nothing scheduled. *)
Definition fresh_runtime (now : Z) (n : nat) : Runtime :=
  mkRuntime now [] 0 (replicate n FUser) [].

(** ** [useMonitorEvent]: the subscribing effect and its cleanup *)

Inductive Handler :=
| HFunction (f : nat)
| HConfig (callback : JsValue) (debounce throttle : option Z)
| HOther.

Record App := mkApp {
  client : EventDriver;
  runtime : Runtime;
  warnings : nat;                              (* console.warn calls *)
  unsubscribeFunctions : list Handle;
  timeoutRefs : list (JsValue * list nat);     (* timeoutRefsRef.current *)
}.

Definition with_runtime (rt : Runtime) (a : App) : App :=
  mkApp (client a) rt (warnings a) (unsubscribeFunctions a) (timeoutRefs a).

Definition warn (a : App) : App :=
  mkApp (client a) (runtime a) (S (warnings a)) (unsubscribeFunctions a)
        (timeoutRefs a).

(** [const unsubscribe = subscribe(key, wrappedCallback);
     unsubscribeFunctions.push(unsubscribe)] *)
Definition subscribe_push (key : JsValue) (f : nat) (a : App)
  : Completion App :=
  match subscribe (client a) key (VFunction f) with
  | Normal (d, h) =>
      Normal (mkApp d (runtime a) (warnings a)
                    (unsubscribeFunctions a ++ [h]) (timeoutRefs a))
  | Throw e => Throw e
  end.

(** [d !== undefined && d > 0] *)
Definition positive_delay (d : option Z) : option Z :=
  match d with
  | Some n => if n >? 0 then Some n else None
  | None => None
  end.

(** The body of [Object.entries(handlersRef.current).forEach].  The
    provider's [subscribe] only adds a max-listeners warning before it
    delegates to the driver; that warning is not modelled.  The keys
    [Object.entries] yields are strings, so the message of the first
    warning can always be built. *)
Definition monitor_entry (key : JsValue) (handler : Handler) (a : App)
  : Completion App :=
  if negb (truthy key) || negb (bool_decide (typeof key = TString))
  then Normal (warn a)
  else
    match handler with
    | HFunction f => subscribe_push key f a
    | HConfig (VFunction callback) debounceDelay throttleDelay =>
        let a1 := match debounceDelay, throttleDelay with
                  | Some _, Some _ => warn a
                  | _, _ => a
                  end in
        let '(wrappedCallback, rt) :=
          match positive_delay debounceDelay with
          | Some dd => createDebouncedCallback callback dd (runtime a1)
          | None =>
              match positive_delay throttleDelay with
              | Some td => createThrottledCallback callback td (runtime a1)
              | None => (callback, runtime a1)
              end
          end in
        subscribe_push key wrappedCallback (with_runtime rt a1)
    | HConfig _ _ _ => Normal (warn a)
    | HOther => Normal (warn a)
    end.

(** The effect: subscribe every entry of [handlers]. *)
Fixpoint useMonitorEvent (handlers : list (JsValue * Handler)) (a : App)
  : Completion App :=
  match handlers with
  | [] => Normal a
  | (key, handler) :: rest =>
      match monitor_entry key handler a with
      | Normal a' => useMonitorEvent rest a'
      | Throw e => Throw e
      end
  end.

(** The function the effect returns: call every unsubscribe handle, then
    [clearTimeout] every timer recorded in [timeoutRefs] and empty it. *)
Definition effect_cleanup (a : App) : App :=
  let d := foldl (λ d h, unsubscribe h d) (client a)
                 (unsubscribeFunctions a) in
  let rt := foldl (λ rt e, foldl (λ rt id, clearTimeout id rt) rt e.2)
                  (runtime a) (timeoutRefs a) in
  mkApp d rt (warnings a) (unsubscribeFunctions a) [].

(** The listeners the hook registers neither touch the driver nor throw
    nor return a Promise. *)
Definition plain_env : Env := λ _ _, mkScript [] (Returns VUndefined).

(** [client.trigger(key, ...args)] in the application: the driver picks
    the listeners, the function table runs them. *)
Definition app_trigger (key : JsValue) (args : list JsValue) (a : App)
  : option (Completion App) :=
  match trigger (S (length (deref (sets (client a))
                              (default O (JSMap.get (listeners (client a)) key)))))
                plain_env (client a) key args with
  | None => None
  | Some (Throw e) => Some (Throw e)
  | Some (Normal r) =>
      Some (Normal
        (mkApp (after r)
               (foldl (λ rt c, match c.1.1 with
                               | VFunction f => apply_fn f c.1.2 rt
                               | _ => rt
                               end) (runtime a) (calls r))
               (warnings a) (unsubscribeFunctions a) (timeoutRefs a)))
  end.

Definition app_advance (target : Z) (a : App) : App :=
  with_runtime (advance target (runtime a)) a.

Definition new_app (now : Z) (n : nat) : App :=
  mkApp new_driver (fresh_runtime now n) 0 [] [].

(** ** Sequences of registry operations *)

(** One registry operation issued from outside a dispatch; a [subscribe]
    that throws leaves the driver as it was. *)
Definition apply_action (d : EventDriver) (a : Action) : EventDriver :=
  match a with
  | ASubscribe key callback =>
      match subscribe d key callback with
      | Normal (d', _) => d'
      | Throw _ => d
      end
  | AUnsubscribe h => unsubscribe h d
  | ACleanup => cleanup d
  end.

(** The driver after the operations [ops], starting from a new one. *)
Definition run (ops : list Action) : EventDriver :=
  foldl apply_action new_driver ops.

(** [callback] is a member of the Listener Set of [key]. *)
Definition registered (d : EventDriver) (key callback : JsValue) : Prop :=
  ∃ l, JSMap.get (listeners d) key = Some l
       ∧ Some callback ∈ deref (sets d) l.

(** The invariant of the object graph: keys are unique, no [Set] is
    shared between keys, every reference is allocated, no listed [Set] is
    empty. *)
Record wf (d : EventDriver) : Prop := mkWf {
  wf_keys : NoDup (listeners d).*1;
  wf_refs : NoDup (listeners d).*2;
  wf_live : ∀ key l, (key, l) ∈ listeners d →
              (l < length (sets d))%nat ∧ 0 < JSSet.size (deref (sets d) l);
}.

(** The promise ids recorded by a run, read off its call log. *)
Definition recorded (cs : list (JsValue * list JsValue * Outcome))
  : list nat :=
  omap (λ c, match c.2 with ReturnsPromise p => Some p | _ => None end) cs.

(** The errors a run has isolated, read off its call log. *)
Definition thrown (cs : list (JsValue * list JsValue * Outcome))
  : list JsError :=
  omap (λ c, match c.2 with Throws e => Some e | _ => None end) cs.

(** The key is missing, is not a string, or is the empty string. *)
Definition invalid_key (key : JsValue) : Prop :=
  key = VUndefined ∨ typeof key ≠ TString ∨ key = VString "".

(** What [_invalidateKey] throws for a key it refuses. *)
Definition key_error (key : JsValue) : JsError :=
  if printable key then InvalidKey key else CannotConvert key.

(** The callee and the arguments of every call of a log. *)
Definition callees (cs : list (JsValue * list JsValue * Outcome))
  : list (JsValue * list JsValue) := cs.*1.

(** The listeners of a [Set] do nothing to the driver when called with
    [args]. *)
Definition quiet (env : Env) (args : list JsValue) (s : JSSet.SetData)
  : Prop :=
  ∀ f, Some (VFunction f) ∈ s → actions (env f args) = [].

(** Two listeners under one key; the first one, when called, calls the
    unsubscribe handle of the second. *)
Definition two_listeners : EventDriver :=
  run [ASubscribe (VString "k") (VFunction 1);
       ASubscribe (VString "k") (VFunction 2)].

Definition first_unsubscribes_second : Env :=
  λ f _, if decide (f = 1%nat)
         then mkScript [AUnsubscribe (mkHandle (VString "k") (VFunction 2))]
                       (Returns VUndefined)
         else mkScript [] (Returns VUndefined).

(** The first listener, when called, subscribes a third one. *)
Definition first_subscribes_third : Env :=
  λ f _, if decide (f = 1%nat)
         then mkScript [ASubscribe (VString "k") (VFunction 3)]
                       (Returns VUndefined)
         else mkScript [] (Returns VUndefined).

(** How a call of [callback] with [args] completes when the driver calls
    of its body go through: as the body says.  Calling what is not a
    function is a TypeError. *)
Definition completes (env : Env) (args : list JsValue) (callback : JsValue)
  : Outcome :=
  match callback with
  | VFunction f => outcome (env f args)
  | _ => Throws NotCallable
  end.

(** A driver call that the driver does not refuse. *)
Definition accepted_action (a : Action) : Prop :=
  match a with
  | ASubscribe key callback =>
      ¬ invalid_key key ∧ typeof callback = TFunction
  | AUnsubscribe _ | ACleanup => True
  end.

(** No listener makes a driver call that the driver refuses, so a
    listener throws only what its own body throws. *)
Definition driver_calls_accepted (env : Env) : Prop :=
  ∀ f args, Forall accepted_action (actions (env f args)).

(** The reports owed for a run over the listeners [cs]: one for every
    listener that throws, in call order, carrying what it threw. *)
Definition failures (env : Env) (key : JsValue) (args : list JsValue)
    (cs : list JsValue) : list ConsoleEntry :=
  omap (λ c, match completes env args c with
             | Throws e => Some (ErrorInCallback key e)
             | _ => None
             end) cs.

(** The log of a run that calls the listeners [cs] in order. *)
Definition log_of (env : Env) (args : list JsValue) (cs : list JsValue)
  : list (JsValue * list JsValue * Outcome) :=
  (λ c, (c, args, completes env args c)) <$> cs.

(** The first listener throws, the second returns promise 7. *)
Definition first_throws_second_async : Env :=
  λ f _, mkScript [] (if decide (f = 1%nat) then Throws (UserError VNull)
                      else ReturnsPromise 7).

(** The first listener is asynchronous: it returns promise 7. *)
Definition one_async : Env :=
  λ f _, mkScript [] (if decide (f = 1%nat) then ReturnsPromise 7
                      else Returns VUndefined).

(** The bookkeeping of a run is a function of its call log. *)
Definition consistent (key : JsValue) (args : list JsValue) (st : Dispatch)
  : Prop :=
  Forall (λ c, c.1.2 = args) (invoked st)
  ∧ promises st = (PCatch ∘ PListener) <$> recorded (invoked st)
  ∧ console st = ErrorInCallback key <$> thrown (invoked st).

(** What the synchronous variant keeps of a run of the Promise-returning
    one. *)
Definition forget_promises (st : Dispatch) : Legacy.Dispatch :=
  Legacy.mkDispatch (driver st) (invoked st) (console st).

Definition sync_view (c : Completion Triggered)
  : Completion Legacy.Dispatch :=
  match c with
  | Normal r => Normal (Legacy.mkDispatch (after r) (calls r) (reported r))
  | Throw e => Throw e
  end.

(** ** Runtime states of one wrapper

    The wrapper is the last function of the table [fs ++ [_]]. *)

(** A debounced wrapper right after a call at time [t] with [args]: one
    timer, due [delay] later. *)
Definition debounce_armed (fs : list Fn) (callback : nat) (delay t : Z)
    (args : list JsValue) (id n : nat) (dl : list (nat * Z * list JsValue))
  : Runtime :=
  mkRuntime t [mkTimer id (t + delay) (DebouncedTimeout (length fs) args)] n
            (fs ++ [FDebounced callback delay (Some id)]) dl.

(** A throttled wrapper that fired at [t0] and has seen no call since. *)
Definition throttle_idle (fs : list Fn) (callback : nat) (delay t0 : Z)
    (n : nat) (dl : list (nat * Z * list JsValue)) : Runtime :=
  mkRuntime t0 [] n (fs ++ [FThrottled callback delay t0 None None]) dl.



(** ** A component with one debounced handler *)

Definition search_handlers : list (JsValue * Handler) :=
  [(VString "search", HConfig (VFunction 0) (Some 100) None)].

(** Every [Set] of the store holds functions only, each once. *)
Definition sets_ok (d : EventDriver) : Prop :=
  ∀ s, s ∈ sets d →
    NoDup (JSSet.values s) ∧ ∀ v, Some v ∈ s → typeof v = TFunction.

(** The subscriptions of the functions [fs], in order, under one key. *)
Definition subscribe_all (key : JsValue) (fs : list nat) : list Action :=
  (λ f, ASubscribe key (VFunction f)) <$> fs.

(** Every key of the registry is a non-empty string. *)
Definition keys_valid (d : EventDriver) : Prop :=
  Forall (λ k, ¬ invalid_key k) (getEventKeys d).

(** The first listener, when called, calls [cleanup]. *)
Definition first_cleans_up : Env :=
  λ f _, if decide (f = 1%nat)
         then mkScript [ACleanup] (Returns VUndefined)
         else mkScript [] (Returns VUndefined).

(** ** [EventProvider] ([src/context/EventContext.tsx])

    The provider holds one driver in a ref; [maxListeners] and [debug] are
    its props.  What it writes to the console is kept in [output]. *)

Record ProviderProps := mkProps { maxListeners : Z; debug : bool }.

(** [maxListeners = 100, debug = false] *)
Definition default_props : ProviderProps := mkProps 100 false.

Inductive ProviderOutput :=
| Warn (limit : Z) (key : JsValue)       (* console.warn(warning) *)
| Trace (limit : Z) (key : JsValue).     (* console.trace(warning) *)

Record Provider := mkProvider {
  eventDriverRef : EventDriver;
  output : list ProviderOutput;
}.

Definition new_provider : Provider := mkProvider new_driver [].

(** The [subscribe] of the context value.  The console keeps what was
    written even when the driver then throws. *)
Definition provider_subscribe (props : ProviderProps) (p : Provider)
    (key callback : JsValue) : Provider * Completion Handle :=
  let eventDriver := eventDriverRef p in
  let out :=
    if maxListeners props >? 0 then
      let currentCount := getListenerCount eventDriver key in
      if currentCount >=? maxListeners props then
        output p ++ [Warn (maxListeners props) key]
          ++ (if debug props then [Trace (maxListeners props) key] else [])
      else output p
    else output p in
  match subscribe eventDriver key callback with
  | Normal (d', h) => (mkProvider d' out, Normal h)
  | Throw e => (mkProvider eventDriver out, Throw e)
  end.

(** The functions [fs] subscribed one after the other under [key]. *)
Definition provider_subscribe_all (props : ProviderProps) (key : JsValue)
    (fs : list nat) (p : Provider) : Provider :=
  foldl (λ p f, (provider_subscribe props p key (VFunction f)).1) p fs.

Definition is_warn (o : ProviderOutput) : bool :=
  match o with Warn _ _ => true | Trace _ _ => false end.

Definition warn_count (p : Provider) : Z :=
  Z.of_nat (length (filter (λ o, is_warn o = true) (output p))).

(** An entry of [handlers] that the effect subscribes: a non-empty
    string key with a function or a config object holding one. *)
Definition accepted (e : JsValue * Handler) : bool :=
  negb (negb (truthy e.1) || negb (bool_decide (typeof e.1 = TString)))
  && match e.2 with
     | HFunction _ => true
     | HConfig (VFunction _) _ _ => true
     | _ => false
     end.

(** ** Call patterns and delivery patterns *)

(** Calls at least [delay] after one another, the first one at least
    [delay] after [t]. *)
Fixpoint separated (delay t : Z) (cs : list (Z * list JsValue)) : Prop :=
  match cs with
  | [] => True
  | (t', _) :: cs' => t + delay ≤ t' ∧ separated delay t' cs'
  end.

(** Deliveries at least [delay] after one another. *)
Fixpoint spaced (delay : Z) (dl : list (nat * Z * list JsValue)) : Prop :=
  match dl with
  | [] => True
  | x :: dl' =>
      match dl' with
      | [] => True
      | y :: _ => x.1.2 + delay ≤ y.1.2
      end ∧ spaced delay dl'
  end.


(** The same for one debounced wrapper: no timer, or one timer due
    [delay] after the last call, made at [t]. *)
Inductive debounce_inv (fs : list Fn) (callback : nat) (delay : Z)
  : Runtime → Prop :=
| debounce_inv_idle c n dl :
    Forall (λ x, x.1.1 = callback ∧ x.1.2 ≤ c) dl →
    spaced delay dl →
    debounce_inv fs callback delay
      (mkRuntime c [] n (fs ++ [FDebounced callback delay None]) dl)
| debounce_inv_armed c t id n args dl :
    t ≤ c < t + delay →
    Forall (λ x, x.1.1 = callback ∧ x.1.2 ≤ t) dl →
    spaced delay dl →
    debounce_inv fs callback delay
      (mkRuntime c [mkTimer id (t + delay) (DebouncedTimeout (length fs) args)]
                 n (fs ++ [FDebounced callback delay (Some id)]) dl).

(** ** Listeners that remove themselves *)

(** Every listener of [s], called with [args], either leaves the registry
    alone or calls its own unsubscribe handle for [key] and does nothing
    else to the registry. *)
Definition self_removing (env : Env) (key : JsValue) (args : list JsValue)
    (s : JSSet.SetData) : Prop :=
  ∀ f, Some (VFunction f) ∈ s →
    actions (env f args) = []
    ∨ actions (env f args) = [AUnsubscribe (mkHandle key (VFunction f))].

(** [callback] is one of the entries [s'] and removes itself when called. *)
Definition removed_itself (env : Env) (args : list JsValue)
    (s' : JSSet.SetData) (callback : JsValue) : Prop :=
  Some callback ∈ s'
  ∧ ∃ f, callback = VFunction f ∧ actions (env f args) ≠ [].

(** The state of a dispatch over the [Set] at [l] of driver [d], started
    with self-removing listeners, when it reaches entry [index]. *)
Record once_inv (env : Env) (key : JsValue) (args : list JsValue)
    (d : EventDriver) (l index : nat) (st : Dispatch) : Prop := mkOnceInv {
  once_index : (index ≤ length (deref (sets d) l))%nat;
  once_wf : wf (driver st);
  once_sets : sets_ok (driver st);
  once_alloc : (l < length (sets (driver st)))%nat;
  once_length :
    length (deref (sets (driver st)) l) = length (deref (sets d) l);
  once_ahead :
    ∀ j, (index ≤ j)%nat →
         deref (sets (driver st)) l !! j = deref (sets d) l !! j;
  once_key :
    JSMap.get (listeners (driver st)) key = Some l
    ∨ ∀ v, Some v ∉ deref (sets (driver st)) l;
  once_calls :
    callees (invoked st)
    = (λ c, (c, args)) <$> JSSet.values (take index (deref (sets d) l));
  once_registered :
    ∀ k c, registered (driver st) k c
           ↔ registered d k c
             ∧ ¬ (k = key
                  ∧ removed_itself env args (take index (deref (sets d) l)) c);
}.

(** The first of two listeners removes itself when called. *)
Definition first_removes_itself : Env :=
  λ f _, if decide (f = 1%nat)
         then mkScript [AUnsubscribe (mkHandle (VString "k") (VFunction 1))]
                       (Returns VUndefined)
         else mkScript [] (Returns VUndefined).

(** * Properties *)

(** ** [Set] and [Map] data *)

Section SetFacts.
Implicit Types (s : JSSet.SetData) (v : JsValue).

Lemma values_elem s v : v ∈ JSSet.values s ↔ Some v ∈ s.
Proof.
  unfold JSSet.values. rewrite list_elem_of_omap. split.
  - intros (e & He & Hv). simpl in Hv. by subst.
  - intros H. exists (Some v). done.
Qed.

Lemma size_nonneg s : 0 ≤ JSSet.size s.
Proof. unfold JSSet.size. lia. Qed.

Lemma size_pos_iff s : 0 < JSSet.size s ↔ ∃ v, Some v ∈ s.
Proof.
  unfold JSSet.size. split.
  - intros H. destruct (JSSet.values s) as [|v vs] eqn:E; [simpl in H; lia|].
    exists v. apply values_elem. rewrite E. left.
  - intros [v Hv%values_elem].
    destruct (JSSet.values s); [by apply elem_of_nil in Hv | simpl; lia].
Qed.

Lemma add_elem s v v' : Some v' ∈ JSSet.add s v ↔ Some v' ∈ s ∨ v' = v.
Proof.
  unfold JSSet.add, JSSet.has. case_bool_decide as H.
  - split; [auto|]. intros [?| ->]; done.
  - rewrite elem_of_app, list_elem_of_singleton.
    split; (intros [?|?]; [by left | right; congruence]).
Qed.

Lemma add_idemp s v : JSSet.add (JSSet.add s v) v = JSSet.add s v.
Proof.
  unfold JSSet.add at 1. unfold JSSet.has.
  rewrite bool_decide_eq_true_2; [done|]. apply add_elem. by right.
Qed.

Lemma delete_elem s v v' :
  Some v' ∈ JSSet.delete s v ↔ Some v' ∈ s ∧ v' ≠ v.
Proof.
  unfold JSSet.delete. rewrite list_elem_of_fmap. split.
  - intros (e & He & Hin). case_decide; [done|]. subst e.
    split; [done|]. congruence.
  - intros [Hin Hne]. exists (Some v'). split; [|done].
    rewrite decide_False; [done | congruence].
Qed.

Lemma delete_idemp s v :
  JSSet.delete (JSSet.delete s v) v = JSSet.delete s v.
Proof.
  unfold JSSet.delete. rewrite <- list_fmap_compose.
  apply list_fmap_ext. intros _ e _. simpl.
  destruct (decide (e = Some v)); [done|]. by rewrite decide_False.
Qed.

End SetFacts.

Section MapFacts.
Context {V : Type}.
Implicit Types (m : list (JsValue * V)) (key : JsValue) (v : V).

Lemma get_Some_elem m key v : JSMap.get m key = Some v → (key, v) ∈ m.
Proof.
  induction m as [|[k' v'] m IH]; simpl; [done|].
  case_decide; [intros [= <-]; subst; left | intros; right; auto].
Qed.

Lemma get_None_iff m key : JSMap.get m key = None ↔ key ∉ m.*1.
Proof.
  induction m as [|[k' v'] m IH]; simpl.
  - split; [intros _; apply not_elem_of_nil | done].
  - rewrite not_elem_of_cons. case_decide as E.
    + split; [done | by intros [? _]].
    + rewrite IH. split; [by intros ?; split; [congruence|] | by intros [_ ?]].
Qed.

Lemma elem_get m key v :
  NoDup m.*1 → (key, v) ∈ m → JSMap.get m key = Some v.
Proof.
  induction m as [|[k' v'] m IH]; simpl; [by intros _ ?%elem_of_nil|].
  intros [Hk Hnd]%NoDup_cons [Heq|Hin]%elem_of_cons.
  - injection Heq as -> ->. by rewrite decide_True.
  - rewrite decide_False; [auto|]. intros ->. apply Hk.
    apply list_elem_of_fmap. by exists (key, v).
Qed.

Lemma set_absent m key v :
  JSMap.get m key = None → JSMap.set m key v = m ++ [(key, v)].
Proof.
  induction m as [|[k' v'] m IH]; simpl; [done|].
  case_decide; [done|]. intros Hm. by rewrite IH.
Qed.

Lemma get_set m key v : JSMap.get (JSMap.set m key v) key = Some v.
Proof.
  induction m as [|[k' v'] m IH]; simpl.
  - by rewrite decide_True.
  - case_decide as E; simpl; [by rewrite decide_True | by rewrite decide_False].
Qed.

Lemma delete_elem_iff m key e :
  e ∈ JSMap.delete m key ↔ e ∈ m ∧ e.1 ≠ key.
Proof. unfold JSMap.delete. rewrite list_elem_of_filter. tauto. Qed.

Lemma get_delete m key : JSMap.get (JSMap.delete m key) key = None.
Proof.
  apply get_None_iff. rewrite list_elem_of_fmap.
  intros ([k' v'] & -> & [_ Hne]%delete_elem_iff). done.
Qed.

Lemma delete_fst_NoDup m key : NoDup m.*1 → NoDup (JSMap.delete m key).*1.
Proof.
  unfold JSMap.delete. induction m as [|e m IH]; [done|].
  rewrite fmap_cons. intros [Hk Hnd]%NoDup_cons. rewrite filter_cons.
  case_decide; [|auto]. rewrite fmap_cons. apply NoDup_cons. split; [|auto].
  rewrite list_elem_of_fmap. intros (e' & He & [_ Hin]%list_elem_of_filter).
  apply Hk. apply list_elem_of_fmap. eauto.
Qed.

End MapFacts.

Lemma delete_snd_NoDup (m : list (JsValue * nat)) key :
  NoDup m.*2 → NoDup (JSMap.delete m key).*2.
Proof.
  unfold JSMap.delete. induction m as [|e m IH]; [done|].
  rewrite fmap_cons. intros [Hk Hnd]%NoDup_cons. rewrite filter_cons.
  case_decide; [|auto]. rewrite fmap_cons. apply NoDup_cons. split; [|auto].
  rewrite list_elem_of_fmap. intros (e' & He & [_ Hin]%list_elem_of_filter).
  apply Hk. apply list_elem_of_fmap. eauto.
Qed.

(** ** The object store *)

Lemma deref_alter_eq (f : JSSet.SetData → JSSet.SetData) ss l :
  (l < length ss)%nat → deref (alter f l ss) l = f (deref ss l).
Proof.
  intros [s Hs]%lookup_lt_is_Some. unfold deref.
  by rewrite list_lookup_alter_eq, Hs.
Qed.

Lemma deref_alter_ne (f : JSSet.SetData → JSSet.SetData) ss l l' :
  l ≠ l' → deref (alter f l ss) l' = deref ss l'.
Proof. intros H. unfold deref. by rewrite list_lookup_alter_ne. Qed.

Lemma deref_app_old ss s l : (l < length ss)%nat → deref (ss ++ [s]) l = deref ss l.
Proof. intros H. unfold deref. by rewrite lookup_app_l. Qed.

Lemma deref_app_new ss s : deref (ss ++ [s]) (length ss) = s.
Proof. unfold deref. by rewrite list_lookup_middle. Qed.


(** ** The registry invariant *)

Lemma NoDup_snd_inj (m : list (JsValue * nat)) k1 k2 l :
  NoDup m.*2 → (k1, l) ∈ m → (k2, l) ∈ m → k1 = k2.
Proof.
  induction m as [|[k' l'] m IH]; [by intros _ ?%elem_of_nil|].
  rewrite fmap_cons. intros [Hl Hnd]%NoDup_cons H1%elem_of_cons H2%elem_of_cons.
  simpl in Hl.
  assert (∀ k0, (k0, l') ∈ m → False) as Hno.
  { intros k0 Hin. apply Hl, list_elem_of_fmap. by exists (k0, l'). }
  destruct H1 as [E1|H1], H2 as [E2|H2].
  - congruence.
  - injection E1 as -> ->. by destruct (Hno k2).
  - injection E2 as -> ->. by destruct (Hno k1).
  - by apply IH.
Qed.

Lemma get_delete_ne {V} (m : list (JsValue * V)) key key' :
  key' ≠ key → JSMap.get (JSMap.delete m key) key' = JSMap.get m key'.
Proof.
  intros Hne. unfold JSMap.delete.
  induction m as [|[k0 v0] m IH]; [done|].
  rewrite filter_cons. simpl. destruct (decide (k0 = key)) as [->|E].
  - rewrite decide_False by tauto. by rewrite decide_False.
  - rewrite decide_True by done. simpl. by rewrite IH.
Qed.

Lemma wf_new : wf new_driver.
Proof.
  split; simpl; [apply NoDup_nil_2 | apply NoDup_nil_2 |].
  by intros ?? ?%elem_of_nil.
Qed.

Lemma wf_subscribe d key callback d' h :
  wf d → subscribe d key callback = Normal (d', h) → wf d'.
Proof.
  intros [Hk Hr Hl]. unfold subscribe.
  destruct (_invalidateKey key); [done|].
  destruct (_invalidateCallback callback); [done|].
  destruct (JSMap.get (listeners d) key) as [l|] eqn:G; intros [= <- <-].
  - split; simpl; [done | done |]. intros key' l' Hin.
    destruct (Hl _ _ Hin) as [Hlt Hsz]. rewrite length_alter. split; [done|].
    destruct (decide (l = l')) as [<-|Hne].
    + rewrite deref_alter_eq by done. apply size_pos_iff.
      apply size_pos_iff in Hsz as [v Hv]. exists v. apply add_elem. by left.
    + by rewrite deref_alter_ne.
  - rewrite set_absent by done. split; simpl.
    + rewrite fmap_app. apply NoDup_app. split; [done|]. split.
      * intros x Hx ->%list_elem_of_singleton. by apply get_None_iff in G.
      * apply NoDup_singleton.
    + rewrite fmap_app. apply NoDup_app. split; [done|]. split.
      * intros x [[k0 l0] [-> Hin]]%list_elem_of_fmap Hx%list_elem_of_singleton.
        destruct (Hl _ _ Hin) as [Hlt _]. simpl in Hx. lia.
      * apply NoDup_singleton.
    + intros key' l' [Hin | [= -> ->]%list_elem_of_singleton]%elem_of_app.
      * destruct (Hl _ _ Hin) as [Hlt Hsz]. rewrite length_app. simpl.
        split; [lia|]. by rewrite deref_app_old.
      * rewrite length_app. simpl. split; [lia|]. by rewrite deref_app_new.
Qed.

Lemma wf_unsubscribe h d : wf d → wf (unsubscribe h d).
Proof.
  intros [Hk Hr Hl]. unfold unsubscribe.
  destruct (JSMap.get (listeners d) (h_key h)) as [l|] eqn:G; [|by split].
  apply get_Some_elem in G. destruct (Hl _ _ G) as [Hlt _].
  destruct (JSSet.size _ =? 0) eqn:Hz.
  - split; simpl.
    + by apply delete_fst_NoDup.
    + by apply delete_snd_NoDup.
    + intros key' l' [Hin Hne]%delete_elem_iff. simpl in Hne.
      destruct (Hl _ _ Hin) as [Hlt' Hsz]. rewrite length_alter.
      split; [done|]. rewrite deref_alter_ne; [done|].
      intros ->. apply Hne. by eapply NoDup_snd_inj.
  - split; simpl; [done | done |]. intros key' l' Hin.
    destruct (Hl _ _ Hin) as [Hlt' Hsz]. rewrite length_alter.
    split; [done|]. destruct (decide (l = l')) as [<-|Hne].
    + apply Z.eqb_neq in Hz. pose proof (size_nonneg (deref
        (alter (λ s, JSSet.delete s (h_callback h)) l (sets d)) l)). lia.
    + by rewrite deref_alter_ne.
Qed.

Lemma wf_cleanup d : wf (cleanup d).
Proof.
  split; simpl; [apply NoDup_nil_2 | apply NoDup_nil_2 |].
  by intros ?? ?%elem_of_nil.
Qed.

Lemma wf_apply_action d a : wf d → wf (apply_action d a).
Proof.
  intros Hwf. destruct a as [key callback|h|]; simpl.
  - destruct (subscribe d key callback) as [[d' h]|] eqn:E; [|done].
    by eapply wf_subscribe.
  - by apply wf_unsubscribe.
  - apply wf_cleanup.
Qed.

Lemma wf_run ops : wf (run ops).
Proof.
  unfold run. generalize wf_new. generalize new_driver.
  induction ops as [|a ops IH]; intros d Hwf; simpl; [done|].
  by apply IH, wf_apply_action.
Qed.

Lemma wf_count_pos d key l :
  wf d → JSMap.get (listeners d) key = Some l → 1 ≤ getListenerCount d key.
Proof.
  intros Hwf G. unfold getListenerCount. rewrite G.
  apply get_Some_elem in G. destruct (wf_live _ Hwf _ _ G). lia.
Qed.

(** C10. After any sequence of [subscribe], unsubscribe-handle and
    [cleanup] calls on a new driver, every key of the registry map holds
    a non-empty Listener Set, so [getEventKeys] lists exactly the keys for
    which [hasListeners] is true, and those are the keys whose
    [getListenerCount] is at least 1. *)
Theorem registry_keys_nonempty (ops : list Action) (key : JsValue) :
  (∀ l, JSMap.get (listeners (run ops)) key = Some l →
        JSSet.values (deref (sets (run ops)) l) ≠ [])
  ∧ (key ∈ getEventKeys (run ops) ↔ hasListeners (run ops) key = true)
  ∧ (hasListeners (run ops) key = true ↔ 1 ≤ getListenerCount (run ops) key).
Proof.
  pose proof (wf_run ops) as Hwf. set (d := run ops) in *.
  split; [|split].
  - intros l G E. pose proof (wf_count_pos _ _ _ Hwf G) as Hc.
    unfold getListenerCount in Hc. rewrite G in Hc.
    unfold JSSet.size in Hc. rewrite E in Hc. simpl in Hc. lia.
  - unfold hasListeners, getEventKeys, JSMap.keys.
    destruct (JSMap.get (listeners d) key) as [l|] eqn:G.
    + pose proof (wf_count_pos _ _ _ Hwf G) as Hc. split.
      * intros _. apply Z.gtb_lt. lia.
      * intros _. apply get_Some_elem in G. apply list_elem_of_fmap.
        by exists (key, l).
    + unfold getListenerCount. rewrite G. split; [|done].
      intros Hin. by apply get_None_iff in G.
  - unfold hasListeners. rewrite Z.gtb_lt. lia.
Qed.

Lemma registry_keys_nonempty_witness :
  (VString "k" ∈ getEventKeys two_listeners
   ↔ hasListeners two_listeners (VString "k") = true)
  ∧ (hasListeners two_listeners (VString "k") = true
     ↔ 1 ≤ getListenerCount two_listeners (VString "k")).
Proof.
  exact (proj2 (registry_keys_nonempty
                  [ASubscribe (VString "k") (VFunction 1);
                   ASubscribe (VString "k") (VFunction 2)] (VString "k"))).
Defined.

(** ** Argument validation *)

Lemma invalidateKey_Some key :
  invalid_key key → _invalidateKey key = Some (key_error key).
Proof.
  intros [->|[H| ->]]; [done| |done].
  unfold _invalidateKey, key_error.
  rewrite (bool_decide_eq_false_2 _ H). simpl. rewrite orb_true_r.
  by destruct (printable key).
Qed.

Lemma invalidateKey_None key :
  ¬ invalid_key key → _invalidateKey key = None.
Proof.
  intros H. destruct key as [| | | |s| | | |];
    try (exfalso; apply H; right; left; discriminate).
  unfold _invalidateKey. simpl. case_bool_decide as E; [|done].
  exfalso. apply H. right; right. by rewrite E.
Qed.

Lemma invalidateKey_cases key :
  (invalid_key key ∧ _invalidateKey key = Some (key_error key))
  ∨ (¬ invalid_key key ∧ _invalidateKey key = None).
Proof.
  destruct (_invalidateKey key) as [e|] eqn:E.
  - left. assert (invalid_key key) as Hi.
    { destruct key as [| | | |s| | | |];
        try (right; left; discriminate).
      unfold _invalidateKey in E. simpl in E.
      case_bool_decide as Es; [|done]. right; right. by rewrite Es. }
    split; [done|]. rewrite <- E. by apply invalidateKey_Some.
  - right. split; [|done]. intros Hi%invalidateKey_Some. congruence.
Qed.

Lemma invalidateCallback_cases callback :
  (typeof callback ≠ TFunction
   ∧ _invalidateCallback callback = Some (InvalidCallback (typeof callback)))
  ∨ ((∃ f, callback = VFunction f) ∧ _invalidateCallback callback = None).
Proof.
  destruct callback; try (left; split; [discriminate | done]).
  right. eauto.
Qed.

(** X20. The checks of [subscribe] and [trigger]: both throw on the key
    exactly when it is missing, not a string, or empty, whatever the
    driver, the listeners and the fuel (so before any listener is looked
    up); the error is the invalid-key [Error] when the key can be quoted
    in its message, and what the conversion throws otherwise.  With a
    valid key [subscribe] throws the invalid-callback error exactly when
    the callback is not a function.  These are the only errors the two
    calls throw, and a call that throws hands back no new driver. *)
Lemma argument_checks (d : EventDriver) (key callback : JsValue)
    (fuel : nat) (env : Env) (args : list JsValue) :
  (subscribe d key callback = Throw (key_error key) ↔ invalid_key key)
  ∧ (trigger fuel env d key args = Some (Throw (key_error key))
     ↔ invalid_key key)
  ∧ (printable key = true → key_error key = InvalidKey key)
  ∧ (subscribe d key callback = Throw (InvalidCallback (typeof callback))
     ↔ ¬ invalid_key key ∧ typeof callback ≠ TFunction)
  ∧ (∀ e, subscribe d key callback = Throw e →
          e = key_error key ∨ e = InvalidCallback (typeof callback))
  ∧ (∀ e, trigger fuel env d key args = Some (Throw e) → e = key_error key).
Proof.
  assert (printable key = true → key_error key = InvalidKey key) as Hp.
  { unfold key_error. by intros ->. }
  assert (key_error key ≠ InvalidCallback (typeof callback)) as Hne.
  { unfold key_error. by destruct (printable key). }
  unfold subscribe, trigger.
  destruct (invalidateKey_cases key) as [[Hi ->]|[Hv ->]].
  - split; [done|]. split; [done|]. split; [done|]. split; [|split].
    + split; [|by intros [? _]]. intros [= E]. by destruct Hne.
    + intros e [= <-]. by left.
    + by intros e [= <-].
  - assert (∀ e, match JSMap.get (listeners d) key with
                 | Some l =>
                     match forEach fuel env key args l 0
                             (mkDispatch d [] [] []) with
                     | Some st =>
                         Some (Normal (mkTriggered (driver st) (invoked st)
                                 (console st)
                                 (if (0 <? length (promises st))%nat
                                  then PThen (PAll (promises st))
                                  else PResolve)))
                     | None => None
                     end
                 | None => Some (Normal (mkTriggered d [] [] PResolve))
                 end ≠ Some (Throw e)) as Ht.
    { intros e. by repeat case_match. }
    assert (∀ e, match JSMap.get (listeners d) key with
                 | Some l =>
                     Normal (mkDriver (listeners d)
                               (alter (λ s, JSSet.add s callback) l (sets d)),
                             mkHandle key callback)
                 | None =>
                     Normal (mkDriver
                               (JSMap.set (listeners d) key (length (sets d)))
                               (sets d ++ [[Some callback]]),
                             mkHandle key callback)
                 end ≠ Throw e) as Hs.
    { intros e. by repeat case_match. }
    destruct (invalidateCallback_cases callback) as [[Hc ->]|[[f ->] ->]].
    + split; [split; [intros [= E]; by destruct Hne | done]|].
      split; [split; [by intros ?%Ht | done]|].
      split; [done|]. split; [done|].
      split; [intros e [= <-]; by right|]. by intros e ?%Ht.
    + split; [split; [by intros ?%Hs | done]|].
      split; [split; [by intros ?%Ht | done]|].
      split; [done|].
      split; [split; [by intros ?%Hs | by intros [_ ?]]|].
      split; [by intros e ?%Hs | by intros e ?%Ht].
Qed.

(** C4 fails on the code for a key that cannot be converted to a string:
    for a Symbol key, a key that is not a string, [subscribe] and
    [trigger] do throw before anything else, on every driver, but what
    they throw is the TypeError of the conversion inside the message
    template, not the invalid-key [Error], which is never created. *)
Theorem symbol_key_throws_type_error (d : EventDriver) (id : nat)
    (callback : JsValue) (fuel : nat) (env : Env) (args : list JsValue) :
  typeof (VSymbol id) ≠ TString
  ∧ subscribe d (VSymbol id) callback = Throw (CannotConvert (VSymbol id))
  ∧ trigger fuel env d (VSymbol id) args
    = Some (Throw (CannotConvert (VSymbol id)))
  ∧ subscribe d (VSymbol id) callback ≠ Throw (InvalidKey (VSymbol id))
  ∧ trigger fuel env d (VSymbol id) args
    ≠ Some (Throw (InvalidKey (VSymbol id))).
Proof. done. Qed.

(** ** Unsubscribe handles *)

Lemma alter_alter (f : JSSet.SetData → JSSet.SetData) l (ss : list JSSet.SetData) :
  alter f l (alter f l ss) = alter (f ∘ f) l ss.
Proof. apply list_alter_alter_eq. Qed.

Lemma unsubscribe_twice h d :
  unsubscribe h (unsubscribe h d) = unsubscribe h d.
Proof.
  unfold unsubscribe at 2 3.
  destruct (JSMap.get (listeners d) (h_key h)) as [l|] eqn:G.
  - destruct (JSSet.size _ =? 0) eqn:Hz.
    + unfold unsubscribe. simpl. by rewrite get_delete.
    + unfold unsubscribe. simpl. rewrite G, alter_alter.
      assert (alter ((λ s, JSSet.delete s (h_callback h))
                       ∘ (λ s, JSSet.delete s (h_callback h))) l (sets d)
              = alter (λ s, JSSet.delete s (h_callback h)) l (sets d)) as ->.
      { apply list_alter_ext; [|done]. intros s _. simpl.
        apply delete_idemp. }
      by rewrite Hz.
  - unfold unsubscribe. by rewrite G.
Qed.

Lemma unsubscribe_iter h d n :
  (1 ≤ n)%nat → Nat.iter n (unsubscribe h) d = unsubscribe h d.
Proof.
  induction n as [|[|n] IH]; [lia | done |]. intros _.
  change (Nat.iter (S (S n)) (unsubscribe h) d)
    with (unsubscribe h (Nat.iter (S n) (unsubscribe h) d)).
  rewrite IH by lia. apply unsubscribe_twice.
Qed.

Lemma getListenerCount_nonneg d key : 0 ≤ getListenerCount d key.
Proof.
  unfold getListenerCount. destruct (JSMap.get _ _); [apply size_nonneg|lia].
Qed.

Lemma unsubscribe_registered h d key callback :
  wf d →
  registered (unsubscribe h d) key callback
  ↔ registered d key callback ∧ (key, callback) ≠ (h_key h, h_callback h).
Proof.
  intros Hwf. pose proof (wf_refs _ Hwf) as Hr. unfold unsubscribe.
  destruct (JSMap.get (listeners d) (h_key h)) as [l|] eqn:G.
  2:{ split; [|tauto]. intros Hreg. split; [done|].
      destruct Hreg as (l' & G' & _). intros [= -> ->]. congruence. }
  pose proof (get_Some_elem _ _ _ G) as Hin.
  destruct (wf_live _ Hwf _ _ Hin) as [Hlt _].
  set (ss := alter (λ s, JSSet.delete s (h_callback h)) l (sets d)).
  assert (∀ l', l' ≠ l → deref ss l' = deref (sets d) l') as Hother.
  { intros l' Hne. unfold ss. by rewrite deref_alter_ne. }
  assert (deref ss l = JSSet.delete (deref (sets d) l) (h_callback h)) as Hl.
  { unfold ss. by rewrite deref_alter_eq. }
  assert (∀ l', JSMap.get (listeners d) key = Some l' → key ≠ h_key h →
                l' ≠ l) as Hdiff.
  { intros l' G' Hne ->. apply Hne. apply get_Some_elem in G'.
    by eapply NoDup_snd_inj. }
  destruct (decide (key = h_key h)) as [->|Hk].
  - destruct (JSSet.size (deref ss l) =? 0) eqn:Hz; unfold registered; simpl.
    + rewrite get_delete. split; [by intros (? & ? & _)|].
      intros [(l' & G' & Hm) Hne]. exfalso.
      assert (l' = l) as -> by congruence.
      apply Z.eqb_eq in Hz.
      assert (0 < JSSet.size (deref ss l)); [|lia].
      apply size_pos_iff. exists callback. rewrite Hl. apply delete_elem.
      split; [done|]. congruence.
    + rewrite G. split.
      * intros (l' & [= <-] & Hm). rewrite Hl in Hm.
        apply delete_elem in Hm as [Hm Hne]. split; [eauto|]. congruence.
      * intros [(l' & [= <-] & Hm) Hne]. exists l. split; [done|].
        rewrite Hl. apply delete_elem. split; [done|]. congruence.
  - assert (registered
              (if JSSet.size (deref ss l) =? 0
               then mkDriver (JSMap.delete (listeners d) (h_key h)) ss
               else mkDriver (listeners d) ss) key callback
            ↔ registered d key callback) as ->.
    { unfold registered. destruct (JSSet.size (deref ss l) =? 0); simpl;
        rewrite ?get_delete_ne by done;
        split; intros (l' & G' & Hm); exists l'; (split; [done|]);
        [rewrite <- Hother | rewrite Hother | rewrite <- Hother
         | rewrite Hother]; eauto. }
    split; [|tauto]. intros Hreg. split; [done|]. congruence.
Qed.

(** X21. An unsubscribe handle is a total function of the driver (it
    cannot throw); calling it twice in a row, or any number of times at
    least one, leaves the driver as one call does; right after [cleanup]
    it changes nothing; [getListenerCount] is never negative; and on a
    driver reached by registry operations it removes the registration of
    its callback under its key, and no other. *)
Lemma unsubscribe_repeated (h : Handle) (d : EventDriver) :
  unsubscribe h (unsubscribe h d) = unsubscribe h d
  ∧ (∀ n, (1 ≤ n)%nat → Nat.iter n (unsubscribe h) d = unsubscribe h d)
  ∧ unsubscribe h (cleanup d) = cleanup d
  ∧ (∀ key, 0 ≤ getListenerCount (unsubscribe h d) key)
  ∧ (∀ ops key callback,
       registered (unsubscribe h (run ops)) key callback
       ↔ registered (run ops) key callback
         ∧ (key, callback) ≠ (h_key h, h_callback h)).
Proof.
  split; [apply unsubscribe_twice|].
  split; [intros n; apply unsubscribe_iter|].
  split; [done|].
  split; [intros key; apply getListenerCount_nonneg|].
  intros ops key callback. apply unsubscribe_registered, wf_run.
Qed.

(** C6 fails on the code: the handle is not a one-shot token.  It keeps
    no record of having been called, so a handle that was already called,
    or that was issued before a [cleanup], removes the callback again when
    the same callback has been subscribed under the same key in between:
    the second invocation has an effect of its own, and after [cleanup]
    the old handle is not a no-op. *)
Theorem used_handle_removes_again :
  ∃ d1 h1 d2 h2 d3 h3,
    subscribe new_driver (VString "k") (VFunction 1) = Normal (d1, h1)
    ∧ getListenerCount (unsubscribe h1 d1) (VString "k") = 0
    ∧ subscribe (unsubscribe h1 d1) (VString "k") (VFunction 1)
      = Normal (d2, h2)
    ∧ getListenerCount d2 (VString "k") = 1
    ∧ getListenerCount (unsubscribe h1 d2) (VString "k") = 0
    ∧ unsubscribe h1 d2 ≠ d2
    ∧ subscribe (cleanup d1) (VString "k") (VFunction 1) = Normal (d3, h3)
    ∧ getListenerCount d3 (VString "k") = 1
    ∧ getListenerCount (unsubscribe h1 d3) (VString "k") = 0
    ∧ unsubscribe h1 d3 ≠ d3.
Proof.
  do 6 eexists. split; [reflexivity|]. split; [reflexivity|].
  split; [reflexivity|]. split; [reflexivity|]. split; [reflexivity|].
  split; [discriminate|]. split; [reflexivity|]. split; [reflexivity|].
  split; [reflexivity|]. discriminate.
Qed.

(** ** The dispatch loop *)

Lemma call_quiet env callback args d :
  (∀ f, callback = VFunction f → actions (env f args) = []) →
  (call env callback args d).1 = d.
Proof.
  intros H. destruct callback; try done. simpl.
  rewrite (H _ eq_refl). done.
Qed.

Lemma on_listener_invoked env key args callback st :
  invoked (on_listener env key args callback st)
  = invoked st
      ++ [(callback, args, (call env callback args (driver st)).2)].
Proof.
  unfold on_listener. destruct (call env callback args (driver st)) as [d' out].
  by destruct out.
Qed.

Lemma on_listener_driver env key args callback st :
  driver (on_listener env key args callback st)
  = (call env callback args (driver st)).1.
Proof.
  unfold on_listener. destruct (call env callback args (driver st)) as [d' out].
  by destruct out.
Qed.

(** Whatever every step of the loop preserves holds when the loop ends. *)
Lemma forEach_preserves (P : Dispatch → Prop) env key args l :
  (∀ callback st, P st → P (on_listener env key args callback st)) →
  ∀ fuel index st st',
    P st → forEach fuel env key args l index st = Some st' → P st'.
Proof.
  intros Hstep. induction fuel as [|fuel IH]; intros index st st' HP; [done|].
  simpl. destruct (deref (sets (driver st)) l !! index) as [[callback|]|].
  - apply IH. by apply Hstep.
  - by apply IH.
  - by intros [= <-].
Qed.

Lemma recorded_app cs cs' : recorded (cs ++ cs') = recorded cs ++ recorded cs'.
Proof. unfold recorded. apply omap_app. Qed.

Lemma thrown_app cs cs' : thrown (cs ++ cs') = thrown cs ++ thrown cs'.
Proof. unfold thrown. apply omap_app. Qed.

Lemma on_listener_consistent env key args callback st :
  consistent key args st →
  consistent key args (on_listener env key args callback st).
Proof.
  intros (Ha & Hp & Hc). unfold consistent, on_listener.
  destruct (call env callback args (driver st)) as [d' out].
  destruct out; simpl; rewrite recorded_app, thrown_app, Hp, Hc;
    simpl; rewrite ?fmap_app, ?app_nil_r;
    (split; [apply Forall_app; split; [done | by apply Forall_singleton]|]);
    done.
Qed.

Lemma forEach_consistent fuel env key args l index st st' :
  consistent key args st →
  forEach fuel env key args l index st = Some st' →
  consistent key args st'.
Proof.
  apply (forEach_preserves (consistent key args)).
  intros. by apply on_listener_consistent.
Qed.

(** Listeners reach the registry through its operations only, so a
    dispatch keeps the invariant of the object graph. *)
Lemma wf_run_actions acts :
  ∀ d, wf d → wf (run_actions acts d).1.
Proof.
  induction acts as [|[key callback|h|] acts IH]; intros d Hwf; simpl.
  - done.
  - destruct (subscribe d key callback) as [[d' h]|e] eqn:E; [|done].
    apply IH. by eapply wf_subscribe.
  - by apply IH, wf_unsubscribe.
  - apply IH, wf_cleanup.
Qed.

Lemma wf_trigger fuel env d key args r :
  wf d → trigger fuel env d key args = Some (Normal r) → wf (after r).
Proof.
  intros Hwf. unfold trigger. destruct (_invalidateKey key); [done|].
  destruct (JSMap.get (listeners d) key) as [l|]; [|by intros [= <-]].
  destruct (forEach _ _ _ _ _ _ _) as [st|] eqn:E; [|done].
  intros [= <-]. simpl.
  apply (forEach_preserves (λ st, wf (driver st)) env key args l) in E;
    [done| |done].
  intros callback st0 Hst. rewrite on_listener_driver.
  destruct callback; try done. simpl.
  pose proof (wf_run_actions (actions (env f args)) _ Hst) as Hra.
  by destruct (run_actions _ _) as [d' [e|]].
Qed.

(** With listeners that leave the driver alone the loop visits every
    live entry from [index] on, in order, and ends. *)
Lemma forEach_quiet env key args l d :
  quiet env args (deref (sets d) l) →
  ∀ fuel index st,
    driver st = d →
    (length (deref (sets d) l) - index < fuel)%nat →
    ∃ st', forEach fuel env key args l index st = Some st'
           ∧ driver st' = d
           ∧ callees (invoked st')
             = callees (invoked st)
                 ++ ((λ c, (c, args)) <$>
                       JSSet.values (drop index (deref (sets d) l))).
Proof.
  intros Hq. induction fuel as [|fuel IH]; intros index st Hd Hfuel; [lia|].
  simpl. rewrite Hd.
  destruct (deref (sets d) l !! index) as [e|] eqn:E.
  - pose proof (lookup_lt_Some _ _ _ E) as Hlt.
    rewrite (drop_S _ _ _ E). destruct e as [callback|].
    + assert (driver (on_listener env key args callback st) = d) as Hd'.
      { rewrite on_listener_driver, Hd. apply call_quiet.
        intros f ->. apply Hq. by eapply list_elem_of_lookup_2. }
      destruct (IH (S index) _ Hd') as (st' & -> & Hd'' & Hc); [lia|].
      exists st'. split; [done|]. split; [done|]. rewrite Hc.
      unfold callees. rewrite on_listener_invoked, fmap_app. simpl.
      by rewrite <- app_assoc.
    + destruct (IH (S index) st Hd) as (st' & -> & Hd'' & Hc); [lia|].
      exists st'. done.
  - exists st. split; [done|]. split; [done|].
    rewrite drop_ge by (by apply lookup_ge_None). simpl.
    by rewrite app_nil_r.
Qed.

Lemma trigger_shape fuel env d key args r :
  trigger fuel env d key args = Some (Normal r) →
  Forall (λ c, c.1.2 = args) (calls r)
  ∧ reported r = ErrorInCallback key <$> thrown (calls r)
  ∧ returned r = match recorded (calls r) with
                 | [] => PResolve
                 | ps => PThen (PAll ((PCatch ∘ PListener) <$> ps))
                 end.
Proof.
  unfold trigger. destruct (_invalidateKey key); [done|].
  destruct (JSMap.get (listeners d) key) as [l|].
  - destruct (forEach _ _ _ _ _ _ _) as [st|] eqn:E; [|done].
    intros [= <-]. simpl.
    apply forEach_consistent in E as (Ha & Hp & Hc); [|by repeat split].
    split; [done|]. split; [done|]. rewrite Hp.
    by destruct (recorded (invoked st)).
  - intros [= <-]. simpl. by repeat split.
Qed.

Lemma trigger_quiet fuel env d key args l :
  ¬ invalid_key key →
  JSMap.get (listeners d) key = Some l →
  quiet env args (deref (sets d) l) →
  (length (deref (sets d) l) < fuel)%nat →
  ∃ r, trigger fuel env d key args = Some (Normal r)
       ∧ callees (calls r)
         = (λ c, (c, args)) <$> JSSet.values (deref (sets d) l)
       ∧ after r = d.
Proof.
  intros Hk G Hq Hfuel. unfold trigger.
  rewrite (invalidateKey_None _ Hk), G.
  destruct (forEach_quiet env key args l d Hq fuel 0 (mkDispatch d [] [] []))
    as (st & -> & Hd & Hc); [done | lia |].
  eexists. split; [done|]. simpl. split; [|done]. by rewrite Hc.
Qed.

(** ** Promises gathered by [trigger] *)

Lemma gather_not_rejected w ps :
  Rejected ∉ map (pstate w) ((PCatch ∘ PListener) <$> ps).
Proof.
  induction ps as [|p ps IH]; simpl; [apply not_elem_of_nil|].
  apply not_elem_of_cons. split; [|done]. by destruct (w p).
Qed.

Lemma gather_pending w ps :
  Pending ∈ map (pstate w) ((PCatch ∘ PListener) <$> ps)
  ↔ ∃ p, p ∈ ps ∧ w p = Pending.
Proof.
  induction ps as [|p ps IH]; simpl.
  - split; [by intros ?%elem_of_nil | by intros (? & ?%elem_of_nil & _)].
  - rewrite elem_of_cons, IH. split.
    + intros [H|(q & Hq & Hw)].
      * exists p. split; [left|]. by destruct (w p).
      * exists q. split; [by right | done].
    + intros (q & [->|Hq]%elem_of_cons & Hw).
      * left. by rewrite Hw.
      * right. eauto.
Qed.

Lemma gather_state w ps :
  pstate w (PThen (PAll ((PCatch ∘ PListener) <$> ps))) ≠ Rejected
  ∧ (pstate w (PThen (PAll ((PCatch ∘ PListener) <$> ps))) = Fulfilled
     ↔ ∀ p, p ∈ ps → w p ≠ Pending).
Proof.
  simpl. unfold all_state.
  rewrite bool_decide_eq_false_2 by apply gather_not_rejected.
  case_bool_decide as E; rewrite gather_pending in E.
  - split; [done|]. split; [done|]. intros H.
    destruct E as (p & Hp & Hw). by destruct (H p Hp).
  - split; [done|]. split; [|done]. intros _ p Hp Hw. apply E. eauto.
Qed.

(** ** How listeners complete does not steer the loop *)

Lemma call_same_actions env env' callback args d :
  (∀ f a, actions (env' f a) = actions (env f a)) →
  (call env' callback args d).1 = (call env callback args d).1.
Proof.
  intros H. destruct callback; try done. simpl. rewrite H.
  by destruct (run_actions _ _) as [d' [e|]].
Qed.

Lemma forEach_same_actions env env' key args l :
  (∀ f a, actions (env' f a) = actions (env f a)) →
  ∀ fuel index st1 st2 st1',
    driver st2 = driver st1 →
    callees (invoked st2) = callees (invoked st1) →
    forEach fuel env key args l index st1 = Some st1' →
    ∃ st2', forEach fuel env' key args l index st2 = Some st2'
            ∧ driver st2' = driver st1'
            ∧ callees (invoked st2') = callees (invoked st1').
Proof.
  intros Hsame. induction fuel as [|fuel IH];
    intros index st1 st2 st1' Hd Hc; [done|].
  simpl. rewrite Hd.
  destruct (deref (sets (driver st1)) l !! index) as [[callback|]|].
  - apply IH.
    + rewrite !on_listener_driver, Hd. by apply call_same_actions.
    + unfold callees in *. rewrite !on_listener_invoked, !fmap_app, Hc. done.
  - by apply IH.
  - intros [= <-]. eauto.
Qed.

(** ** The two variants of [trigger] run the same dispatch *)

Lemma legacy_on_listener env key args callback st :
  Legacy.on_listener env key args callback (forget_promises st)
  = forget_promises (on_listener env key args callback st).
Proof.
  unfold Legacy.on_listener, on_listener, forget_promises. simpl.
  destruct (call env callback args (driver st)) as [d' out]. by destruct out.
Qed.

Lemma legacy_forEach env key args l fuel :
  ∀ index st,
    Legacy.forEach fuel env key args l index (forget_promises st)
    = forget_promises <$> forEach fuel env key args l index st.
Proof.
  induction fuel as [|fuel IH]; intros index st; [done|]. simpl.
  destruct (deref (sets (driver st)) l !! index) as [[callback|]|];
    [|apply IH|done].
  rewrite legacy_on_listener. apply IH.
Qed.

Lemma legacy_trigger_agrees fuel env d key args :
  Legacy.trigger fuel env d key args
  = sync_view <$> trigger fuel env d key args.
Proof.
  unfold Legacy.trigger, trigger. destruct (_invalidateKey key); [done|].
  destruct (JSMap.get (listeners d) key) as [l|]; [|done].
  change (Legacy.mkDispatch d [] []) with
    (forget_promises (mkDispatch d [] [] [])).
  rewrite legacy_forEach. by destruct (forEach _ _ _ _ _ _ _).
Qed.

(** ** Dispatch *)

Lemma valid_k : ¬ invalid_key (VString "k").
Proof. intros [H|[H|H]]; [discriminate | by apply H | discriminate]. Qed.

(** For a key with a Listener Set, every call [trigger] makes passes the
    original arguments unchanged; when no listener of the set subscribes,
    unsubscribes or cleans up while it is called, the run calls exactly
    the members registered at trigger time, in insertion order, and
    leaves the driver as it was. *)
Lemma trigger_undisturbed (env : Env) (d : EventDriver) (key : JsValue)
    (args : list JsValue) (l : nat) :
  ¬ invalid_key key →
  JSMap.get (listeners d) key = Some l →
  (∀ fuel r, trigger fuel env d key args = Some (Normal r) →
             Forall (λ c, c.1.2 = args) (calls r))
  ∧ (quiet env args (deref (sets d) l) →
     ∀ fuel, (length (deref (sets d) l) < fuel)%nat →
       ∃ r, trigger fuel env d key args = Some (Normal r)
            ∧ callees (calls r)
              = (λ c, (c, args)) <$> JSSet.values (deref (sets d) l)
            ∧ after r = d).
Proof.
  intros Hk G. split.
  - intros fuel r Hr. by destruct (trigger_shape _ _ _ _ _ _ Hr).
  - intros Hq fuel Hfuel. by apply trigger_quiet.
Qed.

(** C1 fails on the code: [trigger] walks the live [Set] object with
    [forEach] and takes no snapshot.  With two listeners registered at
    trigger time, the first of which calls the unsubscribe handle of the
    second, the run calls only the first: a member registered at trigger
    time is skipped.  And when the first subscribes a third listener
    under the key, the run calls the third one too, which was not
    registered at trigger time. *)
Theorem trigger_not_snapshot :
  JSSet.values (deref (sets two_listeners) 0) = [VFunction 1; VFunction 2]
  ∧ (∃ r, trigger 5 first_unsubscribes_second two_listeners (VString "k") []
          = Some (Normal r)
          ∧ callees (calls r) = [(VFunction 1, [])]
          ∧ callees (calls r)
            ≠ (λ c, (c, [])) <$> JSSet.values (deref (sets two_listeners) 0))
  ∧ (∃ r, trigger 5 first_subscribes_third two_listeners (VString "k") []
          = Some (Normal r)
          ∧ callees (calls r)
            = [(VFunction 1, []); (VFunction 2, []); (VFunction 3, [])]
          ∧ callees (calls r)
            ≠ (λ c, (c, [])) <$> JSSet.values (deref (sets two_listeners) 0)).
Proof.
  split; [reflexivity|].
  split; eexists; (split; [reflexivity|]); (split; [reflexivity|]);
    vm_compute; discriminate.
Qed.

(** C2. With a valid key [trigger] returns a promise: [Promise.resolve()]
    at once when the key has no Listener Set (whatever the fuel); when the
    run recorded no promise the returned promise is [Promise.resolve()],
    fulfilled in every world; otherwise it is fulfilled exactly in the
    worlds where none of the recorded listener promises is still pending
    (fulfilled or rejected, both count); and the call does return when the
    listeners leave the driver alone. *)
Theorem trigger_future (fuel : nat) (env : Env) (d : EventDriver)
    (key : JsValue) (args : list JsValue) :
  ¬ invalid_key key →
  (JSMap.get (listeners d) key = None →
   trigger fuel env d key args = Some (Normal (mkTriggered d [] [] PResolve)))
  ∧ (∀ r, trigger fuel env d key args = Some (Normal r) →
       (recorded (calls r) = [] → returned r = PResolve)
       ∧ (recorded (calls r) ≠ [] →
          returned r
          = PThen (PAll ((PCatch ∘ PListener) <$> recorded (calls r))))
       ∧ (∀ w, pstate w (returned r) = Fulfilled
               ↔ ∀ p, p ∈ recorded (calls r) → w p ≠ Pending))
  ∧ (∀ l, JSMap.get (listeners d) key = Some l →
          quiet env args (deref (sets d) l) →
          (length (deref (sets d) l) < fuel)%nat →
          ∃ r, trigger fuel env d key args = Some (Normal r)).
Proof.
  intros Hk. split; [|split].
  - intros G. unfold trigger. by rewrite (invalidateKey_None _ Hk), G.
  - intros r Hr. destruct (trigger_shape _ _ _ _ _ _ Hr) as (_ & _ & Hret).
    split; [|split].
    + intros E. by rewrite Hret, E.
    + intros E. rewrite Hret. by destruct (recorded (calls r)).
    + intros w. rewrite Hret. destruct (recorded (calls r)) as [|p ps] eqn:E.
      * split; [by intros _ ? ?%elem_of_nil | done].
      * apply gather_state.
  - intros l G Hq Hfuel.
    destruct (trigger_quiet fuel env d key args l) as (r & Hr & _); eauto.
Qed.

Lemma trigger_future_witness :
  ¬ invalid_key (VString "k")
  ∧ ∃ r, trigger 3 one_async two_listeners (VString "k") [] = Some (Normal r)
         ∧ recorded (calls r) = [7%nat]
         ∧ returned r = PThen (PAll [PCatch (PListener 7)])
         ∧ ∀ w, pstate w (returned r) = Fulfilled
                ↔ ∀ p, p ∈ recorded (calls r) → w p ≠ Pending.
Proof.
  split; [exact valid_k|].
  destruct (trigger_future 3 one_async two_listeners (VString "k") [] valid_k)
    as (_ & Hres & _).
  eexists. split; [reflexivity|]. split; [reflexivity|].
  split; [reflexivity|]. intros w.
  exact (proj2 (proj2 (Hres _ eq_refl)) w).
Defined.

Lemma run_actions_accepted acts :
  Forall accepted_action acts → ∀ d, (run_actions acts d).2 = None.
Proof.
  induction 1 as [|a acts Ha _ IH]; intros d; [done|].
  destruct a as [key callback|h|]; simpl; [|apply IH..].
  destruct Ha as [Hk Hc]. unfold subscribe.
  rewrite (invalidateKey_None _ Hk).
  destruct callback; try done. simpl.
  destruct (JSMap.get (listeners d) key); apply IH.
Qed.

Lemma call_accepted env callback args d :
  driver_calls_accepted env →
  (call env callback args d).2 = completes env args callback.
Proof.
  intros Hacc. destruct callback; try done. simpl.
  pose proof (run_actions_accepted _ (Hacc f args) d) as Hr.
  destruct (run_actions (actions (env f args)) d) as [d' [e|]]; done.
Qed.

Lemma call_quiet_outcome env callback args d :
  (∀ f, callback = VFunction f → actions (env f args) = []) →
  call env callback args d = (d, completes env args callback).
Proof.
  intros H. destruct callback; try done. simpl.
  by rewrite (H _ eq_refl).
Qed.

Lemma failures_thrown env key args cs :
  ErrorInCallback key <$> thrown (log_of env args cs)
  = failures env key args cs.
Proof.
  unfold thrown, log_of, failures.
  induction cs as [|c cs IH]; [done|]. simpl.
  destruct (completes env args c); simpl; try exact IH.
  f_equal. exact IH.
Qed.

Lemma log_of_app env args cs cs' :
  log_of env args (cs ++ cs') = log_of env args cs ++ log_of env args cs'.
Proof. unfold log_of. apply fmap_app. Qed.

(** When the driver refuses no call of a listener, the log of a dispatch
    holds, for every listener called, what its body does. *)
Lemma forEach_log env key args l :
  driver_calls_accepted env →
  ∀ fuel index st st',
    invoked st = log_of env args (callees (invoked st)).*1 →
    forEach fuel env key args l index st = Some st' →
    invoked st' = log_of env args (callees (invoked st')).*1.
Proof.
  intros Hacc fuel index st st'.
  apply (forEach_preserves
           (λ st, invoked st = log_of env args (callees (invoked st)).*1)).
  intros callback st0 H0. rewrite on_listener_invoked, call_accepted by done.
  unfold callees in *. rewrite !fmap_app, log_of_app, <- H0. done.
Qed.

(** With listeners that leave the driver alone the loop calls every
    live entry from [index] on, whichever of them throw, and reports
    each throw. *)
Lemma forEach_quiet_log env key args l d :
  quiet env args (deref (sets d) l) →
  ∀ fuel index st,
    driver st = d →
    (length (deref (sets d) l) - index < fuel)%nat →
    ∃ st', forEach fuel env key args l index st = Some st'
           ∧ invoked st'
             = invoked st
                 ++ log_of env args
                      (JSSet.values (drop index (deref (sets d) l)))
           ∧ console st'
             = console st
                 ++ failures env key args
                      (JSSet.values (drop index (deref (sets d) l))).
Proof.
  intros Hq. induction fuel as [|fuel IH]; intros index st Hd Hfuel; [lia|].
  simpl. rewrite Hd.
  destruct (deref (sets d) l !! index) as [e|] eqn:E.
  - pose proof (lookup_lt_Some _ _ _ E) as Hlt.
    rewrite (drop_S _ _ _ E). destruct e as [callback|].
    + assert (call env callback args d = (d, completes env args callback))
        as Hcall.
      { apply call_quiet_outcome. intros f ->. apply Hq.
        by eapply list_elem_of_lookup_2. }
      assert (driver (on_listener env key args callback st) = d) as Hd'.
      { by rewrite on_listener_driver, Hd, Hcall. }
      destruct (IH (S index) _ Hd') as (st' & -> & Hi & Hc); [lia|].
      exists st'. split; [done|]. rewrite Hi, Hc.
      rewrite on_listener_invoked. unfold on_listener.
      rewrite Hd, Hcall. simpl. unfold failures, log_of. simpl.
      destruct (completes env args callback); simpl;
        by rewrite <- ?app_assoc, ?app_nil_r.
    + destruct (IH (S index) st Hd) as (st' & -> & Hi & Hc); [lia|].
      exists st'. done.
  - exists st. split; [done|].
    rewrite drop_ge by (by apply lookup_ge_None). simpl.
    by rewrite !app_nil_r.
Qed.

(** C3. With a valid key [trigger] never throws, whatever its listeners
    do.  When it returns, the promise it returns is never rejected, in
    any world (a listener promise that fails is caught), and every error
    reported is one of the log; when moreover the driver refuses no call
    a listener makes, the log holds for every listener called what its
    body does (returns, throws, returns a promise), and the reports are
    exactly one per listener whose body throws, in call order, carrying
    what it threw.  How the listeners complete changes neither which
    listeners are called nor the registry.  And when the listeners leave
    the driver alone, every member of the set is called, in order, also
    after one that throws, each throw is reported, the promise
    returned waits for exactly the promises the listeners returned, and
    the call returns. *)
Theorem listener_failures_contained (fuel : nat) (env : Env)
    (d : EventDriver) (key : JsValue) (args : list JsValue) :
  ¬ invalid_key key →
  (∀ e, trigger fuel env d key args ≠ Some (Throw e))
  ∧ (∀ r, trigger fuel env d key args = Some (Normal r) →
       reported r = ErrorInCallback key <$> thrown (calls r)
       ∧ (∀ w, pstate w (returned r) ≠ Rejected)
       ∧ (driver_calls_accepted env →
          calls r = log_of env args (callees (calls r)).*1
          ∧ reported r = failures env key args (callees (calls r)).*1))
  ∧ (∀ env' r,
       (∀ f a, actions (env' f a) = actions (env f a)) →
       trigger fuel env d key args = Some (Normal r) →
       ∃ r', trigger fuel env' d key args = Some (Normal r')
             ∧ after r' = after r
             ∧ callees (calls r') = callees (calls r))
  ∧ (∀ l, JSMap.get (listeners d) key = Some l →
          quiet env args (deref (sets d) l) →
          (length (deref (sets d) l) < fuel)%nat →
          ∃ r, trigger fuel env d key args = Some (Normal r)
               ∧ calls r
                 = log_of env args (JSSet.values (deref (sets d) l))
               ∧ reported r
                 = failures env key args (JSSet.values (deref (sets d) l))
               ∧ returned r
                 = match recorded
                           (log_of env args
                              (JSSet.values (deref (sets d) l))) with
                   | [] => PResolve
                   | ps => PThen (PAll ((PCatch ∘ PListener) <$> ps))
                   end
               ∧ ∀ w, pstate w (returned r) ≠ Rejected).
Proof.
  intros Hk.
  assert (∀ r, trigger fuel env d key args = Some (Normal r) →
               ∀ w, pstate w (returned r) ≠ Rejected) as Hnr.
  { intros r Hr w. destruct (trigger_shape _ _ _ _ _ _ Hr) as (_ & _ & Hret).
    rewrite Hret. destruct (recorded (calls r)) as [|p ps]; [done|].
    apply gather_state. }
  split; [|split; [|split]].
  - intros e. unfold trigger. rewrite (invalidateKey_None _ Hk).
    destruct (JSMap.get _ _); [destruct (forEach _ _ _ _ _ _ _)|]; done.
  - intros r Hr. destruct (trigger_shape _ _ _ _ _ _ Hr) as (_ & Hrep & _).
    split; [done|]. split; [by apply Hnr|]. intros Hacc.
    assert (calls r = log_of env args (callees (calls r)).*1) as Hlog.
    { revert Hr. unfold trigger. rewrite (invalidateKey_None _ Hk).
      destruct (JSMap.get (listeners d) key) as [l|]; [|by intros [= <-]].
      destruct (forEach _ _ _ _ _ _ _) as [st|] eqn:E; [|done].
      intros [= <-]. simpl.
      by eapply (forEach_log env key args l Hacc) in E. }
    split; [done|]. rewrite Hrep. rewrite Hlog at 1.
    apply failures_thrown.
  - intros env' r Hsame. unfold trigger.
    rewrite (invalidateKey_None _ Hk).
    destruct (JSMap.get (listeners d) key) as [l|].
    + destruct (forEach fuel env _ _ _ _ _) as [st|] eqn:E; [|done].
      intros [= <-].
      destruct (forEach_same_actions env env' key args l Hsame fuel 0
                  (mkDispatch d [] [] []) (mkDispatch d [] [] []) st)
        as (st' & -> & Hd & Hc); [done..|].
      eexists. split; [done|]. simpl. done.
    + intros [= <-]. eexists. done.
  - intros l G Hq Hfuel.
    destruct (forEach_quiet_log env key args l d Hq fuel 0
                (mkDispatch d [] [] [])) as (st & Hst & Hi & Hc);
      [done | lia |].
    assert (trigger fuel env d key args
            = Some (Normal (mkTriggered (driver st) (invoked st) (console st)
                              (if (0 <? length (promises st))%nat
                               then PThen (PAll (promises st))
                               else PResolve)))) as Hr.
    { unfold trigger. by rewrite (invalidateKey_None _ Hk), G, Hst. }
    simpl in Hi, Hc.
    destruct (trigger_shape _ _ _ _ _ _ Hr) as (_ & _ & Hret).
    simpl in Hret. rewrite Hi in Hret.
    eexists. split; [exact Hr|]. split; [exact Hi|].
    split; [exact Hc|]. split; [exact Hret|]. by apply (Hnr _ Hr).
Qed.

Lemma listener_failures_contained_witness :
  ¬ invalid_key (VString "k")
  ∧ JSMap.get (listeners two_listeners) (VString "k") = Some 0%nat
  ∧ quiet first_throws_second_async [] (deref (sets two_listeners) 0)
  ∧ (length (deref (sets two_listeners) 0) < 3)%nat
  ∧ ∃ r, trigger 3 first_throws_second_async two_listeners (VString "k") []
         = Some (Normal r)
         ∧ calls r = [(VFunction 1, [], Throws (UserError VNull));
                      (VFunction 2, [], ReturnsPromise 7)]
         ∧ reported r = [ErrorInCallback (VString "k") (UserError VNull)]
         ∧ returned r = PThen (PAll [PCatch (PListener 7)])
         ∧ ∀ w, pstate w (returned r) ≠ Rejected.
Proof.
  assert (quiet first_throws_second_async []
            (deref (sets two_listeners) 0)) as Hq.
  { intros f _. reflexivity. }
  assert (length (deref (sets two_listeners) 0) < 3)%nat as Hfuel.
  { simpl. lia. }
  split; [exact valid_k|]. split; [reflexivity|]. split; [exact Hq|].
  split; [exact Hfuel|].
  exact (proj2 (proj2 (proj2 (listener_failures_contained 3
                                first_throws_second_async two_listeners
                                (VString "k") [] valid_k)))
           0%nat eq_refl Hq Hfuel).
Defined.

(** ** Deduplication *)

Lemma subscribe_again d key callback d1 h :
  subscribe d key callback = Normal (d1, h) →
  subscribe d1 key callback = Normal (d1, h).
Proof.
  unfold subscribe. destruct (_invalidateKey key); [done|].
  destruct (_invalidateCallback callback); [done|].
  destruct (JSMap.get (listeners d) key) as [l|] eqn:G; intros [= <- <-]; simpl.
  - rewrite G, alter_alter. do 3 f_equal.
    apply list_alter_ext; [|done]. intros s _. apply add_idemp.
  - rewrite get_set. do 3 f_equal.
    rewrite <- (Nat.add_0_r (length (sets d))), alter_app_r. simpl.
    unfold JSSet.add, JSSet.has. rewrite bool_decide_eq_true_2; [done|left].
Qed.

(** C5. Subscribing a callback a second time under the same key changes
    nothing (on any driver); on a driver reached by registry operations
    where the key has no listener, after the two subscriptions
    [getListenerCount] is 1 and one [trigger] calls the callback exactly
    once, with the arguments given (the callback leaving the driver alone
    while it runs). *)
Theorem subscribe_twice_stored_once (ops : list Action) (key : JsValue)
    (f : nat) (env : Env) (args : list JsValue) (fuel : nat) :
  ¬ invalid_key key →
  getListenerCount (run ops) key = 0 →
  actions (env f args) = [] →
  (2 ≤ fuel)%nat →
  ∃ d1 h,
    subscribe (run ops) key (VFunction f) = Normal (d1, h)
    ∧ subscribe d1 key (VFunction f) = Normal (d1, h)
    ∧ getListenerCount d1 key = 1
    ∧ ∃ r, trigger fuel env d1 key args = Some (Normal r)
           ∧ callees (calls r) = [(VFunction f, args)].
Proof.
  intros Hk Hcount Hq Hfuel. pose proof (wf_run ops) as Hwf.
  set (d := run ops) in *.
  assert (JSMap.get (listeners d) key = None) as G.
  { destruct (JSMap.get (listeners d) key) as [l|] eqn:G; [|done].
    pose proof (wf_count_pos _ _ _ Hwf G). lia. }
  destruct (subscribe d key (VFunction f)) as [[d1 h]|e] eqn:E.
  2:{ unfold subscribe in E. by rewrite (invalidateKey_None _ Hk), G in E. }
  exists d1, h. split; [done|]. split; [by eapply subscribe_again|].
  unfold subscribe in E. rewrite (invalidateKey_None _ Hk), G in E.
  simpl in E. injection E as <- <-.
  assert (getListenerCount
            (mkDriver (JSMap.set (listeners d) key (length (sets d)))
                      (sets d ++ [[Some (VFunction f)]])) key = 1) as Hone.
  { unfold getListenerCount. simpl. by rewrite get_set, deref_app_new. }
  split; [done|].
  destruct (trigger_quiet fuel env
              (mkDriver (JSMap.set (listeners d) key (length (sets d)))
                        (sets d ++ [[Some (VFunction f)]]))
              key args (length (sets d))) as (r & Hr & Hc & _).
  - done.
  - simpl. apply get_set.
  - simpl. rewrite deref_app_new.
    intros f' [[= ->]|?%elem_of_nil]%elem_of_cons; done.
  - simpl. rewrite deref_app_new. simpl. lia.
  - exists r. split; [done|]. rewrite Hc. simpl. by rewrite deref_app_new.
Qed.

Lemma subscribe_twice_stored_once_witness :
  ¬ invalid_key (VString "k")
  ∧ getListenerCount (run []) (VString "k") = 0
  ∧ actions (plain_env 1%nat [VNumber 7]) = []
  ∧ (2 ≤ 2)%nat
  ∧ ∃ d1 h,
      subscribe (run []) (VString "k") (VFunction 1) = Normal (d1, h)
      ∧ subscribe d1 (VString "k") (VFunction 1) = Normal (d1, h)
      ∧ getListenerCount d1 (VString "k") = 1
      ∧ ∃ r, trigger 2 plain_env d1 (VString "k") [VNumber 7]
             = Some (Normal r)
             ∧ callees (calls r) = [(VFunction 1, [VNumber 7])].
Proof.
  split; [exact valid_k|]. split; [reflexivity|]. split; [reflexivity|].
  split; [lia|].
  apply (subscribe_twice_stored_once [] (VString "k") 1 plain_env
           [VNumber 7] 2 valid_k); [reflexivity | reflexivity | lia].
Defined.

(** ** Timers *)

Lemma lookup_last_fn (fs : list Fn) fn : (fs ++ [fn]) !! length fs = Some fn.
Proof. by apply list_lookup_middle. Qed.

Lemma insert_last_fn (fs : list Fn) fn fn' :
  <[length fs := fn']> (fs ++ [fn]) = fs ++ [fn'].
Proof.
  rewrite <- (Nat.add_0_r (length fs)) at 1. by rewrite insert_app_r.
Qed.

Lemma filter_other_timer id t q :
  timer_id t = id →
  filter (λ t', timer_id t' ≠ id) (t :: q)
  = filter (λ t', timer_id t' ≠ id) q.
Proof. intros H. rewrite filter_cons. by rewrite decide_False by tauto. Qed.

Lemma last_default_cons {A} (a x : A) (cs : list A) :
  default a (last (x :: cs)) = default x (last cs).
Proof.
  revert a x. induction cs as [|c cs IH]; intros a x; [done|].
  change (last (x :: c :: cs)) with (last (c :: cs)).
  by rewrite (IH a c), (IH x c).
Qed.


Lemma timer_delay_id delay :
  0 < delay → delay ≤ TIMEOUT_MAX → timer_delay delay = delay.
Proof.
  intros H1 H2. unfold timer_delay.
  rewrite (proj2 (Z.leb_le 1 delay)) by lia.
  by rewrite (proj2 (Z.leb_le delay TIMEOUT_MAX)).
Qed.

Lemma timer_delay_long delay :
  TIMEOUT_MAX < delay → timer_delay delay = 1.
Proof.
  intros H. unfold timer_delay.
  rewrite (proj2 (Z.leb_gt delay TIMEOUT_MAX)) by done.
  by rewrite andb_false_r.
Qed.

(** ** Debounce *)


Lemma debounce_first fs callback delay t0 t args n dl :
  0 < delay → delay ≤ TIMEOUT_MAX → t0 ≤ t →
  apply_fn (length fs) args
    (advance t (mkRuntime t0 [] n (fs ++ [FDebounced callback delay None]) dl))
  = debounce_armed fs callback delay t args n (S n) dl.
Proof.
  intros Hd Hm Ht. unfold advance. simpl. rewrite Z.max_r by lia.
  unfold apply_fn. simpl. rewrite lookup_last_fn.
  unfold debounced, throttled, setTimeout. simpl.
  unfold set_fn, debounce_armed. simpl.
  rewrite insert_last_fn, timer_delay_id by done. done.
Qed.



Lemma debounce_fires fs callback delay t args id n dl T :
  0 < delay → t + delay ≤ T →
  advance T (debounce_armed fs callback delay t args id n dl)
  = mkRuntime T [] n (fs ++ [FDebounced callback delay None])
              (dl ++ [(callback, t + delay, args)]).
Proof.
  intros Hd HT. unfold advance, debounce_armed. simpl.
  rewrite (proj2 (Z.leb_le _ _)) by lia.
  unfold fire, debounced_timeout, throttled_timeout. simpl.
  rewrite lookup_last_fn. simpl. rewrite filter_other_timer by done.
  rewrite filter_nil. unfold set_fn. simpl.
  rewrite insert_last_fn.
  replace (t `max` (t + delay)) with (t + delay) by lia.
  by rewrite Z.max_r by lia.
Qed.





(** ** Throttle *)



Lemma throttle_first fs callback delay c0 t0 args n dl :
  0 < delay → c0 ≤ t0 → delay ≤ t0 →
  apply_fn (length fs) args
    (advance t0
       (mkRuntime c0 [] n (fs ++ [FThrottled callback delay 0 None None]) dl))
  = throttle_idle fs callback delay t0 n (dl ++ [(callback, t0, args)]).
Proof.
  intros Hd Hc Ht. unfold advance. simpl. rewrite Z.max_r by lia.
  unfold apply_fn. simpl. rewrite lookup_last_fn.
  unfold debounced, throttled. simpl.
  rewrite (proj2 (Z.geb_le _ _)) by lia.
  unfold set_fn, throttle_idle. simpl. by rewrite insert_last_fn.
Qed.








(** ** Teardown of [useMonitorEvent] *)

Lemma subscribe_push_timeoutRefs key f a a' :
  subscribe_push key f a = Normal a' → timeoutRefs a' = timeoutRefs a.
Proof.
  unfold subscribe_push.
  destruct (subscribe (client a) key (VFunction f)) as [[d h]|e]; [|done].
  by intros [= <-].
Qed.

Lemma monitor_entry_timeoutRefs key handler a a' :
  monitor_entry key handler a = Normal a' → timeoutRefs a' = timeoutRefs a.
Proof.
  unfold monitor_entry. case_match; [by intros [= <-]|].
  destruct handler as [f|callback dd td|].
  - apply subscribe_push_timeoutRefs.
  - destruct callback; try (by intros [= <-]).
    set (a1 := match dd, td with Some _, Some _ => warn a | _, _ => a end).
    assert (timeoutRefs a1 = timeoutRefs a) as <-.
    { unfold a1. by destruct dd, td. }
    destruct (match positive_delay dd with
              | Some d0 => createDebouncedCallback f d0 (runtime a1)
              | None =>
                  match positive_delay td with
                  | Some t0 => createThrottledCallback f t0 (runtime a1)
                  | None => (f, runtime a1)
                  end
              end) as [w rt].
    intros Hs%subscribe_push_timeoutRefs. by rewrite Hs.
  - by intros [= <-].
Qed.

(** Nothing the effect does records a timer in [timeoutRefs]. *)
Lemma useMonitorEvent_timeoutRefs handlers :
  ∀ a a', useMonitorEvent handlers a = Normal a' →
          timeoutRefs a' = timeoutRefs a.
Proof.
  induction handlers as [|[key handler] handlers IH]; intros a a'; simpl.
  - by intros [= <-].
  - destruct (monitor_entry key handler a) as [a1|e] eqn:E; [|done].
    intros H%IH. rewrite H. by eapply monitor_entry_timeoutRefs.
Qed.

(** So the cleanup, which cancels the timers of [timeoutRefs] only,
    cancels none. *)
Lemma effect_cleanup_runtime a :
  timeoutRefs a = [] → runtime (effect_cleanup a) = runtime a.
Proof. intros H. unfold effect_cleanup. by rewrite H. Qed.

(** C9 fails on the code: a debounced handler is mounted, the event is
    triggered, the component is torn down at once; the listener is gone,
    but the wrapper's timer is still scheduled and, 100 ms later, the
    handler is called. *)
Lemma teardown_leaves_timer :
  ∃ a1 a2,
    useMonitorEvent search_handlers (new_app 1000 1) = Normal a1
    ∧ app_trigger (VString "search") [VString "q"] a1 = Some (Normal a2)
    ∧ hasListeners (client (effect_cleanup a2)) (VString "search") = false
    ∧ timers (runtime (effect_cleanup a2))
      = [mkTimer 0 1100 (DebouncedTimeout 1 [VString "q"])]
    ∧ delivered (runtime (effect_cleanup a2)) = []
    ∧ delivered (runtime (app_advance 1100 (effect_cleanup a2)))
      = [(0%nat, 1100, [VString "q"])].
Proof.
  eexists. eexists. split; [reflexivity|]. split; [reflexivity|].
  repeat split; reflexivity.
Qed.

(** * Further properties of the registry *)

Lemma values_app (s1 s2 : JSSet.SetData) :
  JSSet.values (s1 ++ s2) = JSSet.values s1 ++ JSSet.values s2.
Proof. unfold JSSet.values. apply omap_app. Qed.

Lemma values_delete (s : JSSet.SetData) v :
  JSSet.values (JSSet.delete s v) = filter (λ x, x ≠ v) (JSSet.values s).
Proof.
  unfold JSSet.values, JSSet.delete. induction s as [|[x|] s IH]; [done| |].
  - rewrite fmap_cons. destruct (decide (Some x = Some v)) as [[= ->]|Hne].
    + simpl. rewrite filter_cons, decide_False by tauto. exact IH.
    + simpl. rewrite filter_cons, decide_True by congruence.
      f_equal. exact IH.
  - rewrite fmap_cons. simpl. exact IH.
Qed.

Lemma values_clear (s : JSSet.SetData) : JSSet.values (JSSet.clear s) = [].
Proof. unfold JSSet.values, JSSet.clear. by induction s. Qed.

Lemma delete_absent (s : JSSet.SetData) v :
  Some v ∉ s → JSSet.delete s v = s.
Proof.
  intros H. unfold JSSet.delete. induction s as [|e s IH]; [done|].
  apply not_elem_of_cons in H as [Hne Hs]. rewrite fmap_cons, IH by done.
  by rewrite decide_False by congruence.
Qed.

Lemma filter_all {A} (P : A → Prop) `{∀ x, Decision (P x)} (l : list A) :
  Forall P l → filter P l = l.
Proof.
  induction 1 as [|x l Hx _ IH]; [done|].
  by rewrite filter_cons, decide_True, IH.
Qed.

Lemma filter_remove_one {A} `{EqDecision A} (l : list A) (v : A) :
  NoDup l → v ∈ l → S (length (filter (λ x, x ≠ v) l)) = length l.
Proof.
  induction l as [|x l IH]; [by intros _ ?%elem_of_nil|].
  intros [Hx Hnd]%NoDup_cons Hin. rewrite filter_cons.
  destruct (decide (x = v)) as [->|Hne].
  - rewrite decide_False by tauto. simpl. f_equal.
    f_equal. apply filter_all. apply Forall_forall.
    intros y Hy ->. done.
  - rewrite decide_True by done. simpl. f_equal. apply IH; [done|].
    apply elem_of_cons in Hin as [->|]; done.
Qed.

Lemma size_add (s : JSSet.SetData) v :
  JSSet.size (JSSet.add s v)
  = if JSSet.has s v then JSSet.size s else JSSet.size s + 1.
Proof.
  unfold JSSet.add. destruct (JSSet.has s v); [done|].
  unfold JSSet.size. rewrite values_app, length_app. simpl. lia.
Qed.

Lemma size_delete (s : JSSet.SetData) v :
  NoDup (JSSet.values s) → Some v ∈ s →
  JSSet.size (JSSet.delete s v) = JSSet.size s - 1.
Proof.
  intros Hnd Hin%values_elem. unfold JSSet.size. rewrite values_delete.
  pose proof (filter_remove_one _ _ Hnd Hin). lia.
Qed.

Lemma get_set_ne {V} (m : list (JsValue * V)) key key' v :
  key' ≠ key → JSMap.get (JSMap.set m key v) key' = JSMap.get m key'.
Proof.
  intros Hne. induction m as [|[k0 v0] m IH]; simpl.
  - by rewrite decide_False.
  - destruct (decide (k0 = key)) as [->|E]; simpl.
    + by rewrite !decide_False.
    + by rewrite IH.
Qed.

Lemma delete_absent_key {V} (m : list (JsValue * V)) key :
  key ∉ m.*1 → JSMap.delete m key = m.
Proof.
  intros H. unfold JSMap.delete. apply filter_all, Forall_forall.
  intros [k0 v0] Hin Heq. simpl in Heq. subst k0.
  apply H, list_elem_of_fmap. by exists (key, v0).
Qed.

Lemma subscribe_handle d key callback d' h :
  subscribe d key callback = Normal (d', h) → h = mkHandle key callback.
Proof.
  unfold subscribe. repeat case_match; try done; by intros [= _ <-].
Qed.

Lemma subscribe_valid d key callback d' h :
  subscribe d key callback = Normal (d', h) →
  ¬ invalid_key key ∧ typeof callback = TFunction.
Proof.
  unfold subscribe.
  destruct (invalidateKey_cases key) as [[_ ->]|[Hk ->]]; [done|].
  destruct (invalidateCallback_cases callback) as [[_ ->]|[[f ->] _]]; done.
Qed.

(** ** The sets of the store *)

Lemma sets_ok_new : sets_ok new_driver.
Proof. by intros s ?%elem_of_nil. Qed.

Lemma sets_ok_alter (f : JSSet.SetData → JSSet.SetData) d l ls :
  sets_ok d →
  (∀ s, NoDup (JSSet.values s) ∧ (∀ v, Some v ∈ s → typeof v = TFunction) →
        NoDup (JSSet.values (f s))
        ∧ ∀ v, Some v ∈ f s → typeof v = TFunction) →
  sets_ok (mkDriver ls (alter f l (sets d))).
Proof.
  intros Hok Hf s [i Hi]%list_elem_of_lookup. simpl in Hi.
  rewrite list_lookup_alter in Hi. case_decide as E.
  - destruct (sets d !! l) as [s0|] eqn:E0; [|done]. simpl in Hi.
    injection Hi as <-. apply Hf, Hok. by eapply list_elem_of_lookup_2.
  - apply Hok. by eapply list_elem_of_lookup_2.
Qed.

Lemma sets_ok_subscribe d key callback d' h :
  sets_ok d → subscribe d key callback = Normal (d', h) → sets_ok d'.
Proof.
  intros Hok Hs. destruct (subscribe_valid _ _ _ _ _ Hs) as [_ Hc].
  revert Hs. unfold subscribe. destruct (_invalidateKey key); [done|].
  destruct (_invalidateCallback callback); [done|].
  destruct (JSMap.get (listeners d) key) as [l|]; intros [= <- <-].
  - apply sets_ok_alter; [done|]. intros s [Hnd Hfn]. split.
    + unfold JSSet.add, JSSet.has. case_bool_decide as E; [done|].
      rewrite values_app. simpl. apply NoDup_app. split; [done|].
      split; [|apply NoDup_singleton].
      intros x Hx ->%list_elem_of_singleton. by apply E, values_elem.
    + intros v [Hv| ->]%add_elem; auto.
  - intros s [Hs|Hs%list_elem_of_singleton]%elem_of_app; [by apply Hok|].
    subst s. split; [apply NoDup_singleton|].
    by intros v ->%list_elem_of_singleton%(inj Some).
Qed.

Lemma sets_ok_unsubscribe h d : sets_ok d → sets_ok (unsubscribe h d).
Proof.
  intros Hok. unfold unsubscribe.
  destruct (JSMap.get (listeners d) (h_key h)) as [l|]; [|done].
  assert (∀ ls, sets_ok (mkDriver ls
            (alter (λ s, JSSet.delete s (h_callback h)) l (sets d)))) as H.
  { intros ls. apply sets_ok_alter; [done|]. intros s [Hnd Hfn]. split.
    - rewrite values_delete. by apply NoDup_filter.
    - intros v [Hv _]%delete_elem. auto. }
  destruct (JSSet.size _ =? 0); apply H.
Qed.

Lemma sets_ok_cleanup d : sets_ok d → sets_ok (cleanup d).
Proof.
  intros Hok. unfold cleanup.
  assert (∀ m ss, sets_ok (mkDriver [] ss) →
            sets_ok (mkDriver []
              (foldl (λ ss (e : JsValue * nat), alter JSSet.clear e.2 ss)
                     ss m))) as H.
  { induction m as [|e m IH]; intros ss Hss; [done|]. simpl. apply IH.
    apply (sets_ok_alter JSSet.clear (mkDriver [] ss)); [done|].
    intros s _. rewrite values_clear. split; [apply NoDup_nil_2|].
    intros v Hv. exfalso. unfold JSSet.clear in Hv.
    apply list_elem_of_fmap in Hv as (? & ? & _). done. }
  apply H. exact Hok.
Qed.

Lemma sets_ok_apply_action d a : sets_ok d → sets_ok (apply_action d a).
Proof.
  intros Hok. destruct a as [key callback|h|]; simpl.
  - destruct (subscribe d key callback) as [[d' h]|] eqn:E; [|done].
    by eapply sets_ok_subscribe.
  - by apply sets_ok_unsubscribe.
  - by apply sets_ok_cleanup.
Qed.

Lemma sets_ok_run ops : sets_ok (run ops).
Proof.
  unfold run. generalize sets_ok_new. generalize new_driver.
  induction ops as [|a ops IH]; intros d Hok; simpl; [done|].
  by apply IH, sets_ok_apply_action.
Qed.

Lemma sets_ok_deref d l :
  sets_ok d → (l < length (sets d))%nat →
  NoDup (JSSet.values (deref (sets d) l))
  ∧ ∀ v, Some v ∈ deref (sets d) l → typeof v = TFunction.
Proof.
  intros Hok [s Hs]%lookup_lt_is_Some. unfold deref. rewrite Hs. simpl.
  apply Hok. by eapply list_elem_of_lookup_2.
Qed.

(** ** What [subscribe] and the handle change *)

Lemma wf_keys_iff d key :
  wf d → key ∈ getEventKeys d ↔ hasListeners d key = true.
Proof.
  intros Hwf. unfold hasListeners, getEventKeys, JSMap.keys.
  destruct (JSMap.get (listeners d) key) as [l|] eqn:G.
  - pose proof (wf_count_pos _ _ _ Hwf G) as Hc. split.
    + intros _. apply Z.gtb_lt. lia.
    + intros _. apply get_Some_elem in G. apply list_elem_of_fmap.
      by exists (key, l).
  - unfold getListenerCount. rewrite G. split; [|done].
    intros Hin. by apply get_None_iff in G.
Qed.

Lemma subscribe_registered d key callback d' h k c :
  wf d → subscribe d key callback = Normal (d', h) →
  registered d' k c ↔ registered d k c ∨ (k = key ∧ c = callback).
Proof.
  intros Hwf. pose proof (wf_refs _ Hwf) as Hr. unfold subscribe.
  destruct (_invalidateKey key); [done|].
  destruct (_invalidateCallback callback); [done|].
  destruct (JSMap.get (listeners d) key) as [l|] eqn:G; intros [= <- <-];
    unfold registered; simpl.
  - pose proof (get_Some_elem _ _ _ G) as Hin.
    destruct (wf_live _ Hwf _ _ Hin) as [Hlt _].
    destruct (decide (k = key)) as [->|Hk].
    + rewrite G. split.
      * intros (l' & [= <-] & Hm). rewrite deref_alter_eq in Hm by done.
        apply add_elem in Hm as [Hm| ->]; [left; eauto | by right].
      * intros [(l' & [= <-] & Hm)|[_ ->]]; exists l; (split; [done|]);
          rewrite deref_alter_eq by done; apply add_elem; auto.
    + assert (∀ l', JSMap.get (listeners d) k = Some l' →
                deref (alter (λ s, JSSet.add s callback) l (sets d)) l'
                = deref (sets d) l') as Hsame.
      { intros l' G'. apply deref_alter_ne. intros <-.
        apply Hk. apply get_Some_elem in G'. by eapply NoDup_snd_inj. }
      split.
      * intros (l' & G' & Hm). left. exists l'. by rewrite <- Hsame.
      * intros [(l' & G' & Hm)|[? _]]; [|done]. exists l'.
        by rewrite Hsame.
  - destruct (decide (k = key)) as [->|Hk].
    + rewrite get_set, G. split.
      * intros (l' & [= <-] & Hm). rewrite deref_app_new in Hm.
        apply list_elem_of_singleton in Hm as [= ->]. by right.
      * intros [(l' & ? & _)|[_ ->]]; [done|].
        exists (length (sets d)). split; [done|]. rewrite deref_app_new.
        by apply list_elem_of_singleton.
    + rewrite get_set_ne by done. split.
      * intros (l' & G' & Hm). left. exists l'. split; [done|].
        apply get_Some_elem in G' as Hin.
        destruct (wf_live _ Hwf _ _ Hin) as [Hlt _].
        by rewrite deref_app_old in Hm.
      * intros [(l' & G' & Hm)|[? _]]; [|done]. exists l'. split; [done|].
        apply get_Some_elem in G' as Hin.
        destruct (wf_live _ Hwf _ _ Hin) as [Hlt _].
        by rewrite deref_app_old.
Qed.

Lemma subscribe_keys d key callback d' h :
  subscribe d key callback = Normal (d', h) →
  getEventKeys d'
  = if decide (key ∈ getEventKeys d) then getEventKeys d
    else getEventKeys d ++ [key].
Proof.
  unfold subscribe, getEventKeys, JSMap.keys.
  destruct (_invalidateKey key); [done|].
  destruct (_invalidateCallback callback); [done|].
  destruct (JSMap.get (listeners d) key) as [l|] eqn:G; intros [= <- <-];
    simpl.
  - rewrite decide_True; [done|]. apply get_Some_elem in G.
    apply list_elem_of_fmap. by exists (key, l).
  - rewrite decide_False by (by apply get_None_iff).
    by rewrite set_absent, fmap_app.
Qed.

Lemma has_registered d key callback l :
  JSMap.get (listeners d) key = Some l →
  JSSet.has (deref (sets d) l) callback = true ↔ registered d key callback.
Proof.
  intros G. unfold JSSet.has, registered. rewrite bool_decide_eq_true.
  split; [by exists l|]. intros (l' & G' & Hm). congruence.
Qed.

Lemma subscribe_count d key callback d' h :
  wf d → subscribe d key callback = Normal (d', h) →
  (∀ k, k ≠ key → getListenerCount d' k = getListenerCount d k)
  ∧ (registered d key callback →
     getListenerCount d' key = getListenerCount d key)
  ∧ (¬ registered d key callback →
     getListenerCount d' key = getListenerCount d key + 1).
Proof.
  intros Hwf. pose proof (wf_refs _ Hwf) as Hr. unfold subscribe.
  destruct (_invalidateKey key); [done|].
  destruct (_invalidateCallback callback); [done|].
  destruct (JSMap.get (listeners d) key) as [l|] eqn:G; intros [= <- <-];
    unfold getListenerCount; simpl.
  - pose proof (get_Some_elem _ _ _ G) as Hin.
    destruct (wf_live _ Hwf _ _ Hin) as [Hlt _]. rewrite G.
    rewrite deref_alter_eq, size_add by done.
    split; [|split].
    + intros k Hk. destruct (JSMap.get (listeners d) k) as [l'|] eqn:G';
        [|done].
      rewrite deref_alter_ne; [done|]. intros <-. apply Hk.
      apply get_Some_elem in G'. by eapply NoDup_snd_inj.
    + intros Hreg%(has_registered _ _ _ _ G). by rewrite Hreg.
    + intros Hreg. destruct (JSSet.has _ _) eqn:E; [|done].
      by apply (has_registered _ _ _ _ G) in E.
  - rewrite get_set, G, deref_app_new. split; [|split].
    + intros k Hk. rewrite get_set_ne by done.
      destruct (JSMap.get (listeners d) k) as [l'|] eqn:G'; [|done].
      apply get_Some_elem in G'. destruct (wf_live _ Hwf _ _ G').
      by rewrite deref_app_old.
    + intros (l' & G' & _). congruence.
    + done.
Qed.

Lemma unsubscribe_count h d :
  wf d → sets_ok d →
  (∀ k, k ≠ h_key h →
        getListenerCount (unsubscribe h d) k = getListenerCount d k)
  ∧ (registered d (h_key h) (h_callback h) →
     getListenerCount (unsubscribe h d) (h_key h)
     = getListenerCount d (h_key h) - 1)
  ∧ (¬ registered d (h_key h) (h_callback h) → unsubscribe h d = d).
Proof.
  intros Hwf Hok. pose proof (wf_refs _ Hwf) as Hr. unfold unsubscribe.
  destruct (JSMap.get (listeners d) (h_key h)) as [l|] eqn:G.
  2:{ split; [done|]. split; [|done]. intros (l' & G' & _). congruence. }
  pose proof (get_Some_elem _ _ _ G) as Hin.
  destruct (wf_live _ Hwf _ _ Hin) as [Hlt Hpos].
  destruct (sets_ok_deref _ _ Hok Hlt) as [Hnd _].
  rewrite deref_alter_eq by done.
  set (ss := alter (λ s, JSSet.delete s (h_callback h)) l (sets d)).
  assert (∀ k l', k ≠ h_key h → JSMap.get (listeners d) k = Some l' →
            deref ss l' = deref (sets d) l') as Hother.
  { intros k l' Hk G'. apply deref_alter_ne. intros <-. apply Hk.
    apply get_Some_elem in G'. by eapply NoDup_snd_inj. }
  split; [|split].
  - intros k Hk. unfold getListenerCount.
    destruct (JSSet.size _ =? 0); simpl; rewrite ?get_delete_ne by done;
      (destruct (JSMap.get (listeners d) k) as [l'|] eqn:G'; [|done]);
      by rewrite (Hother k l').
  - intros (l' & G' & Hm). assert (l' = l) as -> by congruence.
    pose proof (size_delete _ _ Hnd Hm) as Hsz. unfold getListenerCount.
    destruct (JSSet.size _ =? 0) eqn:Hz; simpl.
    + rewrite get_delete, G. apply Z.eqb_eq in Hz. lia.
    + rewrite G. unfold ss. by rewrite deref_alter_eq.
  - intros Hreg. assert (Some (h_callback h) ∉ deref (sets d) l) as Hno.
    { intros Hm. apply Hreg. by exists l. }
    rewrite delete_absent by done.
    rewrite (proj2 (Z.eqb_neq _ _)) by lia. destruct d as [ls ss0].
    simpl in *. f_equal. unfold ss. apply list_eq. intros i.
    rewrite list_lookup_alter. case_decide; [subst i|done].
    destruct (ss0 !! l) as [s0|] eqn:E; [|done]. simpl. f_equal.
    apply delete_absent. unfold deref in Hno. by rewrite E in Hno.
Qed.

Lemma delete_keys {V} (m : list (JsValue * V)) key :
  (JSMap.delete m key).*1 = filter (λ k, k ≠ key) m.*1.
Proof.
  unfold JSMap.delete. induction m as [|[k0 v0] m IH]; [done|].
  rewrite fmap_cons, !filter_cons. simpl.
  destruct (decide (k0 ≠ key)); [rewrite fmap_cons; simpl; f_equal|]; exact IH.
Qed.

Lemma unsubscribe_keys h d :
  wf d →
  getEventKeys (unsubscribe h d)
  = if decide (getListenerCount (unsubscribe h d) (h_key h) = 0)
    then filter (λ k, k ≠ h_key h) (getEventKeys d)
    else getEventKeys d.
Proof.
  intros Hwf. unfold unsubscribe, getEventKeys, JSMap.keys.
  destruct (JSMap.get (listeners d) (h_key h)) as [l|] eqn:G.
  - pose proof (get_Some_elem _ _ _ G) as Hin.
    destruct (wf_live _ Hwf _ _ Hin) as [Hlt _].
    destruct (JSSet.size _ =? 0) eqn:Hz; unfold getListenerCount; simpl.
    + rewrite get_delete, decide_True by done. apply delete_keys.
    + rewrite G. apply Z.eqb_neq in Hz. by rewrite decide_False.
  - unfold getListenerCount. rewrite G, decide_True by done.
    symmetry. apply filter_all, Forall_forall. intros k Hk ->.
    by apply get_None_iff in G.
Qed.

Lemma valid_key_string key :
  ¬ invalid_key key → ∃ s, key = VString s ∧ s ≠ ""%string.
Proof.
  intros H. destruct key as [| | | |s| | | |];
    try (exfalso; apply H; right; left; discriminate).
  exists s. split; [done|]. intros ->. apply H. by right; right.
Qed.

Lemma keys_valid_apply_action d a : keys_valid d → keys_valid (apply_action d a).
Proof.
  intros Hv. destruct a as [key callback|h|]; simpl.
  - destruct (subscribe d key callback) as [[d' h]|] eqn:E; [|done].
    unfold keys_valid. rewrite (subscribe_keys _ _ _ _ _ E).
    case_decide; [done|]. apply Forall_app. split; [done|].
    apply Forall_singleton. by destruct (subscribe_valid _ _ _ _ _ E).
  - unfold keys_valid, unsubscribe, getEventKeys, JSMap.keys.
    destruct (JSMap.get _ _); [|done].
    destruct (JSSet.size _ =? 0); simpl; [|done].
    rewrite delete_keys. apply Forall_forall.
    intros x [_ Hx]%list_elem_of_filter. revert x Hx. by apply Forall_forall.
  - constructor.
Qed.

Lemma keys_valid_run ops : keys_valid (run ops).
Proof.
  unfold run. assert (keys_valid new_driver) as H by constructor.
  revert H. generalize new_driver.
  induction ops as [|a ops IH]; intros d Hv; simpl; [done|].
  by apply IH, keys_valid_apply_action.
Qed.

(** X1. A successful [subscribe] on a driver reached by registry
    operations registers the callback under the key and adds no other
    registration; the key then has listeners and is listed by
    [getEventKeys], at the end when it is new and where it was
    otherwise. *)
Theorem subscribe_registers (ops : list Action) (key callback : JsValue)
    (d' : EventDriver) (h : Handle) :
  subscribe (run ops) key callback = Normal (d', h) →
  registered d' key callback
  ∧ hasListeners d' key = true
  ∧ (∀ k c, registered d' k c
            ↔ registered (run ops) k c ∨ (k = key ∧ c = callback))
  ∧ getEventKeys d'
    = if decide (key ∈ getEventKeys (run ops)) then getEventKeys (run ops)
      else getEventKeys (run ops) ++ [key].
Proof.
  intros Hs. pose proof (wf_run ops) as Hwf.
  pose proof (wf_subscribe _ _ _ _ _ Hwf Hs) as Hwf'.
  assert (registered d' key callback) as Hreg.
  { apply (subscribe_registered _ _ _ _ _ key callback Hwf Hs). by right. }
  split; [done|]. split; [|split].
  - apply wf_keys_iff; [done|]. destruct Hreg as (l & G & _).
    apply get_Some_elem in G. apply list_elem_of_fmap. by exists (key, l).
  - intros k c. by eapply subscribe_registered.
  - by eapply subscribe_keys.
Qed.

Lemma subscribe_registers_witness :
  subscribe (run [ASubscribe (VString "a") (VFunction 1)]) (VString "k")
            (VFunction 2)
  = Normal (mkDriver [(VString "a", 0%nat); (VString "k", 1%nat)]
                     [[Some (VFunction 1)]; [Some (VFunction 2)]],
            mkHandle (VString "k") (VFunction 2))
  ∧ hasListeners (mkDriver [(VString "a", 0%nat); (VString "k", 1%nat)]
                           [[Some (VFunction 1)]; [Some (VFunction 2)]])
                 (VString "k") = true.
Proof.
  split; [reflexivity|].
  exact (proj1 (proj2 (subscribe_registers
                         [ASubscribe (VString "a") (VFunction 1)]
                         (VString "k") (VFunction 2) _ _ eq_refl))).
Defined.

(** X2. A successful [subscribe] raises [getListenerCount] of its key by
    one when the callback was not registered under it, leaves it
    unchanged when it was, and never changes the count of another
    key. *)
Theorem subscribe_counts (ops : list Action) (key callback : JsValue)
    (d' : EventDriver) (h : Handle) :
  subscribe (run ops) key callback = Normal (d', h) →
  (∀ k, k ≠ key → getListenerCount d' k = getListenerCount (run ops) k)
  ∧ (registered (run ops) key callback →
     getListenerCount d' key = getListenerCount (run ops) key)
  ∧ (¬ registered (run ops) key callback →
     getListenerCount d' key = getListenerCount (run ops) key + 1).
Proof. intros Hs. eapply subscribe_count; [apply wf_run | done]. Qed.

Lemma subscribe_counts_witness :
  subscribe two_listeners (VString "k") (VFunction 3)
  = Normal (mkDriver [(VString "k", 0%nat)]
              [[Some (VFunction 1); Some (VFunction 2); Some (VFunction 3)]],
            mkHandle (VString "k") (VFunction 3))
  ∧ ¬ registered two_listeners (VString "k") (VFunction 3)
  ∧ getListenerCount
      (mkDriver [(VString "k", 0%nat)]
         [[Some (VFunction 1); Some (VFunction 2); Some (VFunction 3)]])
      (VString "k")
    = getListenerCount two_listeners (VString "k") + 1.
Proof.
  assert (¬ registered two_listeners (VString "k") (VFunction 3)) as Hno.
  { intros (l & [= <-] & Hm). vm_compute in Hm.
    repeat (apply elem_of_cons in Hm as [Hm|Hm]; [discriminate|]).
    by apply elem_of_nil in Hm. }
  split; [reflexivity|]. split; [exact Hno|].
  exact (proj2 (proj2 (subscribe_counts
                         [ASubscribe (VString "k") (VFunction 1);
                          ASubscribe (VString "k") (VFunction 2)]
                         (VString "k") (VFunction 3) _ _ eq_refl)) Hno).
Defined.

(** X3. On a driver reached by registry operations, calling an
    unsubscribe handle lowers [getListenerCount] of its key by one when
    its callback is registered there and otherwise leaves the driver
    exactly as it was; the count of no other key changes; and the key
    leaves [getEventKeys] exactly when its count has become 0, the other
    keys keeping their order. *)
Theorem unsubscribe_counts (ops : list Action) (h : Handle) :
  (∀ k, k ≠ h_key h →
        getListenerCount (unsubscribe h (run ops)) k
        = getListenerCount (run ops) k)
  ∧ (registered (run ops) (h_key h) (h_callback h) →
     getListenerCount (unsubscribe h (run ops)) (h_key h)
     = getListenerCount (run ops) (h_key h) - 1)
  ∧ (¬ registered (run ops) (h_key h) (h_callback h) →
     unsubscribe h (run ops) = run ops)
  ∧ getEventKeys (unsubscribe h (run ops))
    = if decide (getListenerCount (unsubscribe h (run ops)) (h_key h) = 0)
      then filter (λ k, k ≠ h_key h) (getEventKeys (run ops))
      else getEventKeys (run ops).
Proof.
  destruct (unsubscribe_count h (run ops) (wf_run ops) (sets_ok_run ops))
    as (H1 & H2 & H3).
  repeat split; try done. apply unsubscribe_keys, wf_run.
Qed.

Lemma unsubscribe_counts_witness :
  registered two_listeners (VString "k") (VFunction 1)
  ∧ getListenerCount
      (unsubscribe (mkHandle (VString "k") (VFunction 1)) two_listeners)
      (VString "k")
    = getListenerCount two_listeners (VString "k") - 1.
Proof.
  assert (registered two_listeners (VString "k") (VFunction 1)) as Hreg.
  { exists 0%nat. split; [reflexivity|]. vm_compute. left. }
  split; [exact Hreg|].
  exact (proj1 (proj2 (unsubscribe_counts
                         [ASubscribe (VString "k") (VFunction 1);
                          ASubscribe (VString "k") (VFunction 2)]
                         (mkHandle (VString "k") (VFunction 1)))) Hreg).
Defined.

(** X4. Round trip: on a driver reached by registry operations,
    subscribing a callback that was not registered under the key and then
    calling the handle [subscribe] returned gives back the registry as it
    was: the same registrations, the same counts, the same keys in the
    same order. *)
Theorem subscribe_unsubscribe_round_trip (ops : list Action)
    (key callback : JsValue) (d1 : EventDriver) (h : Handle) :
  subscribe (run ops) key callback = Normal (d1, h) →
  ¬ registered (run ops) key callback →
  (∀ k c, registered (unsubscribe h d1) k c ↔ registered (run ops) k c)
  ∧ (∀ k, getListenerCount (unsubscribe h d1) k
          = getListenerCount (run ops) k)
  ∧ getEventKeys (unsubscribe h d1) = getEventKeys (run ops).
Proof.
  intros Hs Hnew. pose proof (wf_run ops) as Hwf.
  pose proof (sets_ok_run ops) as Hok. set (d := run ops) in *.
  pose proof (wf_subscribe _ _ _ _ _ Hwf Hs) as Hwf1.
  pose proof (sets_ok_subscribe _ _ _ _ _ Hok Hs) as Hok1.
  pose proof (subscribe_handle _ _ _ _ _ Hs) as ->.
  destruct (subscribe_count _ _ _ _ _ Hwf Hs) as (Hc1 & _ & Hc3).
  destruct (unsubscribe_count (mkHandle key callback) d1 Hwf1 Hok1)
    as (Hu1 & Hu2 & _). simpl in Hu1, Hu2.
  assert (registered d1 key callback) as Hreg1.
  { apply (subscribe_registered _ _ _ _ _ key callback Hwf Hs). by right. }
  assert (∀ k, getListenerCount (unsubscribe (mkHandle key callback) d1) k
               = getListenerCount d k) as Hcount.
  { intros k. destruct (decide (k = key)) as [->|Hk].
    - rewrite Hu2, Hc3 by done. lia.
    - by rewrite Hu1, Hc1. }
  split; [|split; [done|]].
  - intros k c. rewrite unsubscribe_registered by done. simpl.
    rewrite (subscribe_registered _ _ _ _ _ k c Hwf Hs). split.
    + intros [[?|[-> ->]] Hne]; done.
    + intros Hreg. split; [by left|]. intros [= -> ->]. done.
  - rewrite unsubscribe_keys by done. simpl. rewrite Hcount.
    rewrite (subscribe_keys _ _ _ _ _ Hs).
    destruct (decide (key ∈ getEventKeys d)) as [Hin|Hout].
    + apply (wf_keys_iff _ _ Hwf) in Hin. unfold hasListeners in Hin.
      apply Z.gtb_lt in Hin. rewrite decide_False by lia. done.
    + assert (getListenerCount d key = 0) as ->.
      { destruct (Z.eq_dec (getListenerCount d key) 0) as [|Hne]; [done|].
        exfalso. apply Hout, (wf_keys_iff _ _ Hwf). unfold hasListeners.
        apply Z.gtb_lt. pose proof (getListenerCount_nonneg d key). lia. }
      rewrite decide_True by done. rewrite filter_app, filter_cons.
      rewrite decide_False by tauto. rewrite filter_nil, app_nil_r.
      apply filter_all, Forall_forall. by intros x Hx ->.
Qed.

Lemma subscribe_unsubscribe_round_trip_witness :
  subscribe two_listeners (VString "z") (VFunction 1)
  = Normal (mkDriver [(VString "k", 0%nat); (VString "z", 1%nat)]
              [[Some (VFunction 1); Some (VFunction 2)];
               [Some (VFunction 1)]],
            mkHandle (VString "z") (VFunction 1))
  ∧ ¬ registered two_listeners (VString "z") (VFunction 1)
  ∧ getEventKeys
      (unsubscribe (mkHandle (VString "z") (VFunction 1))
         (mkDriver [(VString "k", 0%nat); (VString "z", 1%nat)]
            [[Some (VFunction 1); Some (VFunction 2)];
             [Some (VFunction 1)]]))
    = getEventKeys two_listeners.
Proof.
  assert (¬ registered two_listeners (VString "z") (VFunction 1)) as Hno.
  { intros (l & G & _). discriminate G. }
  split; [reflexivity|]. split; [exact Hno|].
  exact (proj2 (proj2 (subscribe_unsubscribe_round_trip
                         [ASubscribe (VString "k") (VFunction 1);
                          ASubscribe (VString "k") (VFunction 2)]
                         (VString "z") (VFunction 1) _ _ eq_refl Hno))).
Defined.

(** X5. Whatever registry operations were issued, with whatever
    arguments, [getEventKeys] lists no key twice and only non-empty
    strings, and every registered listener is a function. *)
Theorem registry_entries_valid (ops : list Action) :
  NoDup (getEventKeys (run ops))
  ∧ (∀ k, k ∈ getEventKeys (run ops) → ∃ s, k = VString s ∧ s ≠ ""%string)
  ∧ (∀ k c, registered (run ops) k c → ∃ f, c = VFunction f).
Proof.
  pose proof (wf_run ops) as Hwf. split; [apply (wf_keys _ Hwf)|]. split.
  - intros k Hk. apply valid_key_string.
    pose proof (keys_valid_run ops) as Hv. unfold keys_valid in Hv.
    rewrite Forall_forall in Hv. by apply Hv.
  - intros k c (l & G & Hm). apply get_Some_elem in G.
    destruct (wf_live _ Hwf _ _ G) as [Hlt _].
    destruct (sets_ok_deref _ _ (sets_ok_run ops) Hlt) as [_ Hfn].
    specialize (Hfn _ Hm). destruct c; try discriminate. eauto.
Qed.

Lemma registry_entries_valid_witness :
  VString "k" ∈ getEventKeys
                 (run [ASubscribe (VNumber 3) (VFunction 1);
                       ASubscribe (VString "k") VNull;
                       ASubscribe (VString "k") (VFunction 2)])
  ∧ ∃ s, VString "k" = VString s ∧ s ≠ ""%string.
Proof.
  assert (VString "k" ∈ getEventKeys
            (run [ASubscribe (VNumber 3) (VFunction 1);
                  ASubscribe (VString "k") VNull;
                  ASubscribe (VString "k") (VFunction 2)])) as Hin.
  { vm_compute. left. }
  split; [exact Hin|].
  exact (proj1 (proj2 (registry_entries_valid _)) _ Hin).
Defined.

(** X6. The invariant of the registry survives a dispatch, whatever the
    listeners do to the registry while they run: after [trigger] returns,
    [getEventKeys] lists no key twice and lists exactly the keys for
    which [hasListeners] is true. *)
Theorem trigger_keeps_keys_accurate (ops : list Action) (fuel : nat)
    (env : Env) (key : JsValue) (args : list JsValue) (r : Triggered) :
  trigger fuel env (run ops) key args = Some (Normal r) →
  NoDup (getEventKeys (after r))
  ∧ ∀ k, k ∈ getEventKeys (after r) ↔ hasListeners (after r) k = true.
Proof.
  intros Hr. pose proof (wf_trigger _ _ _ _ _ _ (wf_run ops) Hr) as Hwf.
  split; [apply (wf_keys _ Hwf)|]. intros k. by apply wf_keys_iff.
Qed.

Lemma trigger_keeps_keys_accurate_witness :
  ∃ r, trigger 5 first_unsubscribes_second two_listeners (VString "k") []
       = Some (Normal r)
       ∧ NoDup (getEventKeys (after r)).
Proof.
  eexists. split; [reflexivity|].
  exact (proj1 (trigger_keeps_keys_accurate
                  [ASubscribe (VString "k") (VFunction 1);
                   ASubscribe (VString "k") (VFunction 2)]
                  5 first_unsubscribes_second (VString "k") [] _ eq_refl)).
Defined.

(** * Further properties of the dispatch *)

Lemma legacy_normal_inv fuel env d key args st :
  Legacy.trigger fuel env d key args = Some (Normal st)
  ↔ ∃ r, trigger fuel env d key args = Some (Normal r)
         ∧ Legacy.driver st = after r
         ∧ Legacy.invoked st = calls r
         ∧ Legacy.console st = reported r.
Proof.
  rewrite legacy_trigger_agrees.
  destruct (trigger fuel env d key args) as [[r|e]|]; simpl.
  - split.
    + intros [= <-]. by exists r.
    + intros (r' & [= <-] & H1 & H2 & H3). destruct st. simpl in *.
      by subst.
  - split; [done|]. by intros (? & ? & _).
  - split; [done|]. by intros (? & ? & _).
Qed.

(** X7. The synchronous [trigger] of [src/lib/EventDriver.ts] and the
    Promise-returning one run the same dispatch on every input: one
    throws exactly when the other does, with the same error; one fails to
    end exactly when the other does; and when they return they have
    called the same listeners with the same arguments and outcomes,
    reported the same errors and left the same registry. *)
Theorem sync_trigger_same_dispatch (fuel : nat) (env : Env)
    (d : EventDriver) (key : JsValue) (args : list JsValue) :
  (∀ e, Legacy.trigger fuel env d key args = Some (Throw e)
        ↔ trigger fuel env d key args = Some (Throw e))
  ∧ (Legacy.trigger fuel env d key args = None
     ↔ trigger fuel env d key args = None)
  ∧ (∀ st, Legacy.trigger fuel env d key args = Some (Normal st)
           ↔ ∃ r, trigger fuel env d key args = Some (Normal r)
                  ∧ Legacy.driver st = after r
                  ∧ Legacy.invoked st = calls r
                  ∧ Legacy.console st = reported r).
Proof.
  split; [|split].
  - intros e. rewrite legacy_trigger_agrees.
    destruct (trigger fuel env d key args) as [[r|e']|]; simpl;
      split; intros H; try done; by injection H as ->.
  - rewrite legacy_trigger_agrees.
    by destruct (trigger fuel env d key args) as [[r|e']|].
  - intros st. apply legacy_normal_inv.
Qed.

(** ** Order of dispatch *)

Lemma subscribe_all_values key :
  ¬ invalid_key key →
  ∀ fs pre d l,
    JSMap.get (listeners d) key = Some l →
    (l < length (sets d))%nat →
    deref (sets d) l = (Some ∘ VFunction) <$> pre →
    NoDup (pre ++ fs) →
    JSMap.get (listeners (foldl apply_action d (subscribe_all key fs))) key
    = Some l
    ∧ deref (sets (foldl apply_action d (subscribe_all key fs))) l
      = (Some ∘ VFunction) <$> (pre ++ fs).
Proof.
  intros Hk. induction fs as [|f fs IH]; intros pre d l G Hlt Hs Hnd.
  - simpl. by rewrite app_nil_r.
  - simpl. unfold subscribe. rewrite (invalidateKey_None _ Hk). simpl.
    rewrite G.
    replace (pre ++ f :: fs) with ((pre ++ [f]) ++ fs) in *
      by (by rewrite <- app_assoc).
    apply IH; simpl; [done | by rewrite length_alter | | done].
    rewrite deref_alter_eq, Hs by done. unfold JSSet.add, JSSet.has.
    rewrite bool_decide_eq_false_2; [by rewrite fmap_app|].
    intros (f' & [= <-] & Hin)%list_elem_of_fmap.
    apply NoDup_app in Hnd as [Hnd _]. apply NoDup_app in Hnd as (_ & Hd & _).
    apply (Hd f Hin). left.
Qed.

(** X8. Listeners are called in the order in which they were subscribed:
    when distinct functions are subscribed one after the other under a
    key that had no listener, a [trigger] for that key (the listeners
    leaving the registry alone while they run) calls exactly these
    functions, in that order, each with the arguments given. *)
Theorem dispatch_in_subscription_order (ops : list Action) (key : JsValue)
    (fs : list nat) (env : Env) (args : list JsValue) (fuel : nat) :
  ¬ invalid_key key →
  getListenerCount (run ops) key = 0 →
  NoDup fs →
  (∀ f, f ∈ fs → actions (env f args) = []) →
  (length fs < fuel)%nat →
  ∃ r, trigger fuel env (foldl apply_action (run ops) (subscribe_all key fs))
               key args = Some (Normal r)
       ∧ callees (calls r) = (λ f, (VFunction f, args)) <$> fs.
Proof.
  intros Hk Hcount Hnd Hq Hfuel. pose proof (wf_run ops) as Hwf.
  set (d := run ops) in *.
  assert (JSMap.get (listeners d) key = None) as G.
  { destruct (JSMap.get (listeners d) key) as [l|] eqn:G; [|done].
    pose proof (wf_count_pos _ _ _ Hwf G). lia. }
  destruct fs as [|f fs].
  - exists (mkTriggered d [] [] PResolve). simpl. split; [|done].
    unfold trigger. by rewrite (invalidateKey_None _ Hk), G.
  - simpl foldl. unfold subscribe at 1.
    rewrite (invalidateKey_None _ Hk), G. simpl apply_action.
    set (d1 := mkDriver (JSMap.set (listeners d) key (length (sets d)))
                        (sets d ++ [[Some (VFunction f)]])).
    destruct (subscribe_all_values key Hk fs [f] d1 (length (sets d)))
      as [G' Hs'].
    + apply get_set.
    + simpl. rewrite length_app. simpl. lia.
    + simpl. by rewrite deref_app_new.
    + done.
    + destruct (trigger_quiet fuel env
                  (foldl apply_action d1 (subscribe_all key fs)) key args
                  (length (sets d)) Hk G') as (r & Hr & Hc & _).
      * rewrite Hs'. intros f' (f'' & [= <-] & Hin)%list_elem_of_fmap.
        by apply Hq.
      * rewrite Hs', length_fmap. simpl in *. lia.
      * exists r. split; [done|]. rewrite Hc, Hs'. unfold JSSet.values.
        clear. simpl. f_equal. induction fs as [|f' fs IH]; [done|].
        simpl. by rewrite IH.
Qed.

Lemma dispatch_in_subscription_order_witness :
  ¬ invalid_key (VString "k")
  ∧ getListenerCount (run []) (VString "k") = 0
  ∧ NoDup [3%nat; 1%nat; 2%nat]
  ∧ (∀ f, f ∈ [3%nat; 1%nat; 2%nat] → actions (plain_env f []) = [])
  ∧ (length [3%nat; 1%nat; 2%nat] < 4)%nat
  ∧ ∃ r, trigger 4 plain_env
           (foldl apply_action (run [])
                  (subscribe_all (VString "k") [3%nat; 1%nat; 2%nat]))
           (VString "k") [] = Some (Normal r)
         ∧ callees (calls r)
           = (λ f, (VFunction f, [])) <$> [3%nat; 1%nat; 2%nat].
Proof.
  assert (NoDup [3%nat; 1%nat; 2%nat]) as Hnd.
  { repeat (apply NoDup_cons; split;
            [intros H; repeat (apply elem_of_cons in H as [H|H];
                               [discriminate|]); by apply elem_of_nil in H|]).
    apply NoDup_nil_2. }
  split; [exact valid_k|]. split; [reflexivity|]. split; [exact Hnd|].
  split; [by intros f _|]. split; [simpl; lia|].
  apply (dispatch_in_subscription_order [] (VString "k") [3; 1; 2]%nat
           plain_env [] 4 valid_k eq_refl Hnd); [by intros f _ | simpl; lia].
Defined.

(** ** [cleanup] called by a listener *)

Lemma clear_clear (s : JSSet.SetData) :
  JSSet.clear (JSSet.clear s) = JSSet.clear s.
Proof. unfold JSSet.clear. by rewrite <- list_fmap_compose. Qed.

Lemma deref_alter_clear ss l :
  deref (alter JSSet.clear l ss) l = JSSet.clear (deref ss l).
Proof.
  unfold deref. rewrite list_lookup_alter_eq. by destruct (ss !! l).
Qed.

Lemma foldl_clear_deref (m : list (JsValue * nat)) :
  ∀ ss l,
    deref (foldl (λ ss e, alter JSSet.clear e.2 ss) ss m) l
    = if decide (l ∈ m.*2) then JSSet.clear (deref ss l) else deref ss l.
Proof.
  induction m as [|[k0 l0] m IH]; intros ss l.
  - case_decide as H; [by apply elem_of_nil in H | done].
  - simpl foldl. rewrite IH. rewrite fmap_cons.
    change ((k0, l0).2) with l0.
    destruct (decide (l0 = l)) as [->|Hne].
    + rewrite deref_alter_clear, clear_clear.
      rewrite (decide_True (P := l ∈ l :: m.*2)) by left.
      by case_decide.
    + rewrite deref_alter_ne by done.
      destruct (decide (l ∈ m.*2)) as [Hin|Hout].
      * rewrite decide_True; [done|by right].
      * rewrite decide_False; [done|]. by intros [->|?]%elem_of_cons.
Qed.

Lemma foldl_clear_length (m : list (JsValue * nat)) :
  ∀ ss, length (foldl (λ ss e, alter JSSet.clear e.2 ss) ss m) = length ss.
Proof.
  induction m as [|e m IH]; intros ss; simpl; [done|].
  by rewrite IH, length_alter.
Qed.

(** A [Set] the registry map no longer refers to is out of reach of the
    registry operations. *)
Lemma orphan_run_actions l acts :
  ∀ d, wf d → (l < length (sets d))%nat → l ∉ (listeners d).*2 →
       deref (sets (run_actions acts d).1) l = deref (sets d) l.
Proof.
  induction acts as [|[key callback|h|] acts IH]; intros d Hwf Hlt Hout;
    simpl; [done| | |].
  - destruct (subscribe d key callback) as [[d' h]|e] eqn:E; [|done].
    pose proof (wf_subscribe _ _ _ _ _ Hwf E) as Hwf'.
    revert E. unfold subscribe. destruct (_invalidateKey key); [done|].
    destruct (_invalidateCallback callback); [done|].
    destruct (JSMap.get (listeners d) key) as [l'|] eqn:G; intros [= <- <-].
    + rewrite IH; simpl; [|done|by rewrite length_alter|done].
      apply deref_alter_ne. intros ->. apply Hout.
      apply get_Some_elem in G. apply list_elem_of_fmap. by exists (key, l).
    + rewrite IH; simpl; [by apply deref_app_old|done| |].
      * rewrite length_app. simpl. lia.
      * rewrite set_absent by done. rewrite fmap_app.
        intros [?|Hin%list_elem_of_singleton]%elem_of_app; [done|].
        simpl in Hin. lia.
  - pose proof (wf_unsubscribe h d Hwf) as Hwf'. revert Hwf'.
    unfold unsubscribe.
    destruct (JSMap.get (listeners d) (h_key h)) as [l'|] eqn:G;
      [|intros; by apply IH].
    assert (l' ≠ l) as Hne.
    { intros ->. apply Hout. apply get_Some_elem in G.
      apply list_elem_of_fmap. by exists (h_key h, l). }
    destruct (JSSet.size _ =? 0); intros Hwf'.
    + rewrite IH; simpl; [by apply deref_alter_ne|done
                          |by rewrite length_alter|].
      intros ([k0 l0] & -> & [Hin _]%delete_elem_iff)%list_elem_of_fmap.
      apply Hout. apply list_elem_of_fmap. by exists (k0, l0).
    + rewrite IH; simpl; [by apply deref_alter_ne|done
                          |by rewrite length_alter|done].
  - rewrite IH; simpl.
    + rewrite foldl_clear_deref. by rewrite decide_False by done.
    + apply wf_cleanup.
    + by rewrite foldl_clear_length.
    + apply not_elem_of_nil.
Qed.

Lemma forEach_quiet_prefix env key args l d :
  ∀ k i st,
    driver st = d →
    (∀ j f, (i ≤ j < i + k)%nat →
            deref (sets d) l !! j = Some (Some (VFunction f)) →
            actions (env f args) = []) →
    (i + k ≤ length (deref (sets d) l))%nat →
    ∃ st',
      driver st' = d
      ∧ callees (invoked st')
        = callees (invoked st)
            ++ ((λ c, (c, args)) <$>
                  JSSet.values (take k (drop i (deref (sets d) l))))
      ∧ ∀ fuel, forEach (k + fuel) env key args l i st
                = forEach fuel env key args l (i + k) st'.
Proof.
  induction k as [|k IH]; intros i st Hd Hq Hlen.
  - exists st. split; [done|]. rewrite Nat.add_0_r. split; [|done].
    by rewrite take_0, app_nil_r.
  - destruct (lookup_lt_is_Some_2 (deref (sets d) l) i) as [e E]; [lia|].
    rewrite (drop_S _ _ _ E).
    assert (∀ st1, driver st1 = d →
              callees (invoked st1)
              = callees (invoked st)
                  ++ ((λ c, (c, args)) <$> JSSet.values [e]) →
              ∃ st',
                driver st' = d
                ∧ callees (invoked st')
                  = callees (invoked st)
                      ++ ((λ c, (c, args)) <$>
                            JSSet.values
                              (take (S k) (e :: drop (S i) (deref (sets d) l))))
                ∧ ∀ fuel, forEach (k + fuel) env key args l (S i) st1
                          = forEach fuel env key args l (i + S k) st')
      as Hnext.
    { intros st1 Hd1 Hc1. destruct (IH (S i) st1 Hd1) as (st' & Hd' & Hc' & Hf).
      - intros j f Hj. apply Hq. lia.
      - lia.
      - exists st'. split; [done|]. split.
        + rewrite Hc', Hc1, <- app_assoc, <- fmap_app. do 2 f_equal.
          change (take (S k) (e :: drop (S i) (deref (sets d) l)))
            with ([e] ++ take k (drop (S i) (deref (sets d) l))).
          by rewrite values_app.
        + intros fuel. rewrite Hf. f_equal. lia. }
    destruct e as [callback|].
    + destruct (Hnext (on_listener env key args callback st))
        as (st' & Hd' & Hc' & Hf).
      * rewrite on_listener_driver, Hd. apply call_quiet. intros f ->.
        apply (Hq i); [lia|done].
      * unfold callees. by rewrite on_listener_invoked, fmap_app.
      * exists st'. split; [done|]. split; [done|]. intros fuel.
        rewrite <- Hf. simpl. by rewrite Hd, E.
    + destruct (Hnext st) as (st' & Hd' & Hc' & Hf); [done| |].
      * by rewrite app_nil_r.
      * exists st'. split; [done|]. split; [done|]. intros fuel.
        rewrite <- Hf. simpl. by rewrite Hd, E.
Qed.

(** X9. A listener that calls [cleanup] ends the dispatch it runs in:
    the listeners before it have been called (they leaving the registry
    alone), it is called, and no listener after it is, whatever else it
    does to the registry afterwards; the registry is left as its own
    operations made it. *)
Theorem cleanup_in_listener_ends_dispatch (ops : list Action)
    (key : JsValue) (l f : nat) (pre post : JSSet.SetData) (env : Env)
    (args : list JsValue) (rest : list Action) (fuel : nat) :
  ¬ invalid_key key →
  JSMap.get (listeners (run ops)) key = Some l →
  deref (sets (run ops)) l = pre ++ Some (VFunction f) :: post →
  quiet env args pre →
  actions (env f args) = ACleanup :: rest →
  (length (deref (sets (run ops)) l) < fuel)%nat →
  ∃ r, trigger fuel env (run ops) key args = Some (Normal r)
       ∧ callees (calls r)
         = ((λ c, (c, args)) <$> JSSet.values pre) ++ [(VFunction f, args)]
       ∧ after r = (run_actions rest (cleanup (run ops))).1.
Proof.
  intros Hk G Hs Hq Hact Hfuel. pose proof (wf_run ops) as Hwf.
  set (d := run ops) in *. unfold trigger.
  rewrite (invalidateKey_None _ Hk), G.
  pose proof (get_Some_elem _ _ _ G) as Hin.
  destruct (wf_live _ Hwf _ _ Hin) as [Hlt _].
  rewrite Hs, length_app in Hfuel. simpl in Hfuel.
  destruct (forEach_quiet_prefix env key args l d (length pre) 0
              (mkDispatch d [] [] [])) as (st1 & Hd1 & Hc1 & Hf1).
  - done.
  - intros j f' Hj Hj'. apply Hq. rewrite Hs, lookup_app_l in Hj' by lia.
    by eapply list_elem_of_lookup_2.
  - rewrite Hs, length_app. simpl. lia.
  - replace fuel with (length pre + S (fuel - length pre - 1))%nat by lia.
    rewrite Hf1. simpl. rewrite Hd1, Hs, list_lookup_middle by done.
    rewrite Hs, drop_0, take_app_length in Hc1. simpl in Hc1.
    set (st2 := on_listener env key args (VFunction f) st1).
    set (d2 := (run_actions rest (cleanup d)).1).
    assert (driver st2 = d2) as Hd2.
    { unfold st2. rewrite on_listener_driver, Hd1. simpl. rewrite Hact.
      simpl. unfold d2. by destruct (run_actions rest (cleanup d)) as [? [?|]]. }
    assert (deref (sets d2) l = JSSet.clear (deref (sets d) l)) as Hcl.
    { unfold d2. rewrite orphan_run_actions.
      - unfold cleanup. simpl. rewrite foldl_clear_deref.
        rewrite decide_True; [done|]. apply list_elem_of_fmap.
        by exists (key, l).
      - apply wf_cleanup.
      - unfold cleanup. simpl. by rewrite foldl_clear_length.
      - apply not_elem_of_nil. }
    destruct (forEach_quiet env key args l d2) with
      (fuel := (fuel - length pre - 1)%nat) (index := S (length pre))
      (st := st2) as (st3 & -> & Hd3 & Hc3).
    + rewrite Hcl. intros f' Hm. exfalso. unfold JSSet.clear in Hm.
      apply list_elem_of_fmap in Hm as (? & ? & _). done.
    + done.
    + rewrite Hcl. unfold JSSet.clear. rewrite length_fmap, Hs, length_app.
      simpl. lia.
    + eexists. split; [done|]. simpl. split; [|done].
      rewrite Hc3, Hcl. unfold JSSet.clear at 1. rewrite <- fmap_drop.
      fold (JSSet.clear (drop (S (length pre)) (deref (sets d) l))).
      rewrite values_clear. simpl. rewrite app_nil_r.
      unfold st2, callees. rewrite on_listener_invoked, fmap_app. simpl.
      unfold callees in Hc1. by rewrite Hc1.
Qed.

Lemma cleanup_in_listener_ends_dispatch_witness :
  ¬ invalid_key (VString "k")
  ∧ JSMap.get (listeners two_listeners) (VString "k") = Some 0%nat
  ∧ deref (sets two_listeners) 0
    = [] ++ Some (VFunction 1) :: [Some (VFunction 2)]
  ∧ quiet first_cleans_up [] []
  ∧ actions (first_cleans_up 1%nat []) = ACleanup :: []
  ∧ (length (deref (sets two_listeners) 0) < 3)%nat
  ∧ ∃ r, trigger 3 first_cleans_up two_listeners (VString "k") []
         = Some (Normal r)
         ∧ callees (calls r)
           = ((λ c, (c, [])) <$> JSSet.values []) ++ [(VFunction 1, [])]
         ∧ after r = (run_actions [] (cleanup two_listeners)).1.
Proof.
  assert (quiet first_cleans_up [] []) as Hq.
  { by intros f ?%elem_of_nil. }
  split; [exact valid_k|]. split; [reflexivity|]. split; [reflexivity|].
  split; [exact Hq|]. split; [reflexivity|]. split; [simpl; lia|].
  apply (cleanup_in_listener_ends_dispatch
           [ASubscribe (VString "k") (VFunction 1);
            ASubscribe (VString "k") (VFunction 2)]
           (VString "k") 0 1 [] [Some (VFunction 2)] first_cleans_up [] [] 3
           valid_k eq_refl eq_refl Hq eq_refl).
  simpl; lia.
Defined.

(** * The provider *)

Lemma provider_subscribe_step props p key f :
  ¬ invalid_key key →
  wf (eventDriverRef p) →
  ¬ registered (eventDriverRef p) key (VFunction f) →
  0 < maxListeners props →
  let p' := (provider_subscribe props p key (VFunction f)).1 in
  wf (eventDriverRef p')
  ∧ (∀ c, registered (eventDriverRef p') key c
          ↔ registered (eventDriverRef p) key c ∨ c = VFunction f)
  ∧ getListenerCount (eventDriverRef p') key
    = getListenerCount (eventDriverRef p) key + 1
  ∧ warn_count p'
    = warn_count p
      + (if getListenerCount (eventDriverRef p) key >=? maxListeners props
         then 1 else 0).
Proof.
  intros Hk Hwf Hnew Hmax. unfold provider_subscribe.
  destruct (subscribe (eventDriverRef p) key (VFunction f)) as [[d' h]|e]
    eqn:E.
  2:{ unfold subscribe in E. rewrite (invalidateKey_None _ Hk) in E.
      simpl in E. by destruct (JSMap.get _ _). }
  simpl. split; [by eapply wf_subscribe|]. split; [|split].
  - intros c. rewrite (subscribe_registered _ _ _ _ _ key c Hwf E).
    split; (intros [?|?]; [by left | right; tauto]).
  - by apply (subscribe_count _ _ _ _ _ Hwf E).
  - unfold warn_count. simpl. rewrite (proj2 (Z.gtb_lt _ _)) by lia.
    destruct (_ >=? _); [|lia].
    rewrite !filter_app, !length_app. destruct (debug props); simpl; lia.
Qed.

Lemma provider_subscribe_all_counts props key :
  ¬ invalid_key key → 0 < maxListeners props →
  ∀ fs pre p,
    wf (eventDriverRef p) →
    (∀ c, registered (eventDriverRef p) key c
          ↔ ∃ f, f ∈ pre ∧ c = VFunction f) →
    getListenerCount (eventDriverRef p) key = Z.of_nat (length pre) →
    warn_count p = Z.max 0 (Z.of_nat (length pre) - maxListeners props) →
    NoDup (pre ++ fs) →
    getListenerCount
      (eventDriverRef (provider_subscribe_all props key fs p)) key
    = Z.of_nat (length (pre ++ fs))
    ∧ warn_count (provider_subscribe_all props key fs p)
      = Z.max 0 (Z.of_nat (length (pre ++ fs)) - maxListeners props).
Proof.
  intros Hk Hmax. induction fs as [|f fs IH]; intros pre p Hwf Hreg Hc Hw Hnd.
  - simpl. by rewrite app_nil_r.
  - simpl.
    assert (¬ registered (eventDriverRef p) key (VFunction f)) as Hnew.
    { intros (f' & Hin & [= <-])%Hreg.
      apply NoDup_app in Hnd as (_ & Hd & _). apply (Hd f Hin). left. }
    destruct (provider_subscribe_step props p key f Hk Hwf Hnew Hmax)
      as (Hwf' & Hreg' & Hc' & Hw').
    replace (pre ++ f :: fs) with ((pre ++ [f]) ++ fs) in *
      by (by rewrite <- app_assoc).
    apply IH; [done| | | |done].
    + intros c. rewrite Hreg', Hreg. split.
      * intros [(f' & Hin & ->)| ->]; eexists; (split; [|done]);
          apply elem_of_app; [by left|right; left].
      * intros (f' & [Hin| ->%list_elem_of_singleton]%elem_of_app & ->);
          [left; eauto | by right].
    + rewrite Hc', Hc, length_app. simpl. lia.
    + rewrite Hw', Hw, Hc, length_app. simpl.
      destruct (Z.geb_spec (Z.of_nat (length pre)) (maxListeners props)); lia.
Qed.

(** X10. [maxListeners] never refuses a subscription: when distinct
    functions are subscribed one after the other under a key through a
    new provider with a positive limit, every one of them is registered,
    and the provider has warned once for each subscription made when the
    key already held at least [maxListeners] listeners. *)
Theorem max_listeners_only_warns (props : ProviderProps) (key : JsValue)
    (fs : list nat) :
  ¬ invalid_key key → 0 < maxListeners props → NoDup fs →
  getListenerCount
    (eventDriverRef (provider_subscribe_all props key fs new_provider)) key
  = Z.of_nat (length fs)
  ∧ warn_count (provider_subscribe_all props key fs new_provider)
    = Z.max 0 (Z.of_nat (length fs) - maxListeners props).
Proof.
  intros Hk Hmax Hnd.
  apply (provider_subscribe_all_counts props key Hk Hmax fs [] new_provider).
  - apply wf_new.
  - intros c. split; [by intros (l & ? & _)|].
    by intros (f & ?%elem_of_nil & _).
  - done.
  - simpl. unfold warn_count. simpl. lia.
  - done.
Qed.

Lemma max_listeners_only_warns_witness :
  ¬ invalid_key (VString "k")
  ∧ 0 < maxListeners (mkProps 2 true)
  ∧ NoDup [1%nat; 2%nat; 3%nat]
  ∧ getListenerCount
      (eventDriverRef
         (provider_subscribe_all (mkProps 2 true) (VString "k")
            [1%nat; 2%nat; 3%nat] new_provider)) (VString "k")
    = 3
  ∧ warn_count
      (provider_subscribe_all (mkProps 2 true) (VString "k")
         [1%nat; 2%nat; 3%nat] new_provider)
    = 1.
Proof.
  assert (NoDup [1%nat; 2%nat; 3%nat]) as Hnd.
  { repeat (apply NoDup_cons; split;
            [intros H; repeat (apply elem_of_cons in H as [H|H];
                               [discriminate|]); by apply elem_of_nil in H|]).
    apply NoDup_nil_2. }
  split; [exact valid_k|]. split; [simpl; lia|]. split; [exact Hnd|].
  exact (max_listeners_only_warns (mkProps 2 true) (VString "k")
           [1%nat; 2%nat; 3%nat] valid_k ltac:(simpl; lia) Hnd).
Defined.

(** * The subscribing effect *)

Lemma subscribe_function d key f :
  _invalidateKey key = None →
  ∃ d', subscribe d key (VFunction f)
        = Normal (d', mkHandle key (VFunction f)).
Proof.
  intros Hk. unfold subscribe. rewrite Hk. simpl.
  destruct (JSMap.get (listeners d) key); eauto.
Qed.

Lemma monitor_entry_cases key handler a :
  (accepted (key, handler) = false
   ∧ monitor_entry key handler a = Normal (warn a))
  ∨ (accepted (key, handler) = true
     ∧ ∃ f d' rt w,
         subscribe (client a) key (VFunction f)
         = Normal (d', mkHandle key (VFunction f))
         ∧ monitor_entry key handler a
           = Normal (mkApp d' rt w
                       (unsubscribeFunctions a
                          ++ [mkHandle key (VFunction f)])
                       (timeoutRefs a))).
Proof.
  unfold monitor_entry, accepted. simpl.
  destruct (negb (truthy key) || negb (bool_decide (typeof key = TString)))
    eqn:Hkey; simpl; [by left|].
  assert (_invalidateKey key = None) as Hk.
  { unfold _invalidateKey. by rewrite Hkey. }
  destruct handler as [f|callback dd td|]; [| |by left].
  - right. split; [done|]. unfold subscribe_push.
    destruct (subscribe_function (client a) key f Hk) as [d' E].
    rewrite E. by exists f, d', (runtime a), (warnings a).
  - destruct callback; try (by left). right. split; [done|].
    set (a1 := match dd, td with Some _, Some _ => warn a | _, _ => a end).
    assert (client a1 = client a ∧ unsubscribeFunctions a1
              = unsubscribeFunctions a ∧ timeoutRefs a1 = timeoutRefs a)
      as (Hc & Hu & Ht).
    { unfold a1. by destruct dd, td. }
    destruct (match positive_delay dd with
              | Some d0 => createDebouncedCallback f d0 (runtime a1)
              | None =>
                  match positive_delay td with
                  | Some t0 => createThrottledCallback f t0 (runtime a1)
                  | None => (f, runtime a1)
                  end
              end) as [w rt].
    unfold subscribe_push. simpl. rewrite Hc, Hu, Ht.
    destruct (subscribe_function (client a) key w Hk) as [d' E].
    rewrite E. by exists w, d', rt, (warnings a1).
Qed.

(** X11. The effect never throws, whatever the entries of [handlers]:
    an entry with an empty key, or whose handler is neither a function
    nor a config object holding one, is skipped, and every other entry
    yields exactly one unsubscribe function. *)
Theorem useMonitorEvent_never_throws (handlers : list (JsValue * Handler))
    (a : App) :
  ∃ a', useMonitorEvent handlers a = Normal a'
        ∧ length (unsubscribeFunctions a')
          = (length (unsubscribeFunctions a)
             + length (filter (λ e, accepted e = true) handlers))%nat.
Proof.
  revert a. induction handlers as [|[key handler] handlers IH]; intros a.
  - exists a. simpl. split; [done|]. lia.
  - simpl useMonitorEvent. rewrite filter_cons.
    destruct (monitor_entry_cases key handler a)
      as [[Hacc ->]|[Hacc (f & d' & rt & w & _ & ->)]]; rewrite Hacc.
    + destruct (IH (warn a)) as (a' & -> & Hlen). exists a'.
      split; [done|]. rewrite decide_False by done. exact Hlen.
    + destruct (IH (mkApp d' rt w
                      (unsubscribeFunctions a ++ [mkHandle key (VFunction f)])
                      (timeoutRefs a))) as (a' & -> & Hlen).
      exists a'. split; [done|]. rewrite decide_True by done.
      rewrite Hlen. simpl. rewrite length_app. simpl. lia.
Qed.

Lemma useMonitorEvent_never_throws_witness :
  ∃ a', useMonitorEvent
          [(VString "", HFunction 0); (VString "k", HOther);
           (VString "k", HConfig VNull None None);
           (VString "k", HFunction 0)] (new_app 0 1) = Normal a'
        ∧ length (unsubscribeFunctions a') = 1%nat.
Proof.
  destruct (useMonitorEvent_never_throws
              [(VString "", HFunction 0); (VString "k", HOther);
               (VString "k", HConfig VNull None None);
               (VString "k", HFunction 0)] (new_app 0 1))
    as (a' & Hm & Hlen).
  exists a'. split; [exact Hm | exact Hlen].
Defined.

Lemma foldl_unsubscribe_registered hs :
  ∀ d k c,
    wf d →
    registered (foldl (λ d h, unsubscribe h d) d hs) k c
    ↔ registered d k c ∧ mkHandle k c ∉ hs.
Proof.
  induction hs as [|h hs IH]; intros d k c Hwf; simpl.
  - split; [|tauto]. intros ?. split; [done|apply not_elem_of_nil].
  - rewrite IH by (by apply wf_unsubscribe).
    rewrite unsubscribe_registered by done. rewrite not_elem_of_cons.
    destruct h as [hk hc]. simpl. split.
    + intros [[Hreg Hne] Hout]. repeat split; try done. congruence.
    + intros [Hreg [Hne Hout]]. repeat split; try done. congruence.
Qed.

Lemma useMonitorEvent_registered handlers :
  ∀ a a',
    wf (client a) →
    useMonitorEvent handlers a = Normal a' →
    wf (client a')
    ∧ ∃ hs, unsubscribeFunctions a' = unsubscribeFunctions a ++ hs
            ∧ ∀ k c, registered (client a') k c
                     ↔ registered (client a) k c ∨ mkHandle k c ∈ hs.
Proof.
  induction handlers as [|[key handler] handlers IH]; intros a a' Hwf.
  - simpl. intros [= <-]. split; [done|]. exists []. rewrite app_nil_r.
    split; [done|]. intros k c. split; [by left|].
    by intros [?|?%elem_of_nil].
  - simpl useMonitorEvent.
    destruct (monitor_entry_cases key handler a)
      as [[_ ->]|[_ (f & d' & rt & w & E & ->)]].
    + intros H. by apply (IH (warn a)).
    + intros H. pose proof (wf_subscribe _ _ _ _ _ Hwf E) as Hwf'.
      destruct (IH _ _ (Hwf' : wf (client (mkApp d' rt w _ _))) H)
        as (Hwf'' & hs & Hhs & Hreg).
      simpl in Hhs, Hreg. split; [done|].
      exists (mkHandle key (VFunction f) :: hs).
      split; [by rewrite Hhs, <- app_assoc|]. intros k c.
      rewrite Hreg, (subscribe_registered _ _ _ _ _ k c Hwf E).
      rewrite elem_of_cons. split.
      * intros [[?|[-> ->]]|?]; auto.
      * intros [?|[[= -> ->]|?]]; auto.
Qed.

Lemma no_registration_no_keys d :
  wf d → (∀ k c, ¬ registered d k c) → getEventKeys d = [].
Proof.
  intros Hwf Hno. unfold getEventKeys, JSMap.keys.
  destruct (listeners d) as [|[k l] m] eqn:E; [done|]. exfalso.
  assert ((k, l) ∈ listeners d) as Hin by (rewrite E; left).
  destruct (wf_live _ Hwf _ _ Hin) as [_ [v Hv]%size_pos_iff].
  apply (Hno k v). exists l. split; [|done].
  apply elem_get; [apply (wf_keys _ Hwf) | done].
Qed.

(** X12. The cleanup of the effect removes what the effect subscribed:
    on a driver reached by registry operations, after the effect and then
    its cleanup, the registrations are those the driver had before, less
    the (key, callback) pairs of the effect's own unsubscribe functions;
    on a driver that was empty nothing is registered and [getEventKeys]
    is empty. *)
Theorem effect_cleanup_unsubscribes_all (handlers : list (JsValue * Handler))
    (ops : list Action) (rt : Runtime) (a' : App) :
  useMonitorEvent handlers (mkApp (run ops) rt 0 [] []) = Normal a' →
  (∀ k c, registered (client a') k c
          ↔ registered (run ops) k c
            ∨ mkHandle k c ∈ unsubscribeFunctions a')
  ∧ (∀ k c, registered (client (effect_cleanup a')) k c
            ↔ registered (run ops) k c
              ∧ mkHandle k c ∉ unsubscribeFunctions a')
  ∧ (ops = [] → getEventKeys (client (effect_cleanup a')) = []).
Proof.
  intros Hm.
  destruct (useMonitorEvent_registered handlers
              (mkApp (run ops) rt 0 [] []) a' (wf_run ops) Hm)
    as (Hwf' & hs & Hhs & Hreg).
  simpl in Hhs, Hreg. subst hs.
  assert (∀ k c, registered (client (effect_cleanup a')) k c
                 ↔ registered (run ops) k c
                   ∧ mkHandle k c ∉ unsubscribeFunctions a') as Hafter.
  { intros k c. unfold effect_cleanup. simpl.
    rewrite foldl_unsubscribe_registered by done. rewrite Hreg. tauto. }
  split; [done|]. split; [done|]. intros ->.
  apply no_registration_no_keys.
  - unfold effect_cleanup. simpl.
    generalize (unsubscribeFunctions a'). revert Hwf'.
    generalize (client a'). intros d Hd hs. revert d Hd.
    induction hs as [|h hs IH]; intros d Hd; simpl; [done|].
    by apply IH, wf_unsubscribe.
  - intros k c [(l & ? & _) _]%Hafter. done.
Qed.

Lemma effect_cleanup_unsubscribes_all_witness :
  ∃ a', useMonitorEvent search_handlers (mkApp (run []) (fresh_runtime 0 1)
                                               0 [] []) = Normal a'
        ∧ getEventKeys (client a') = [VString "search"]
        ∧ getEventKeys (client (effect_cleanup a')) = [].
Proof.
  eexists. split; [reflexivity|]. split; [reflexivity|].
  exact (proj2 (proj2 (effect_cleanup_unsubscribes_all search_handlers []
                         (fresh_runtime 0 1) _ eq_refl)) eq_refl).
Defined.

Lemma app_trigger_single key w args rt wn hs trs :
  ¬ invalid_key key →
  app_trigger key args
    (mkApp (mkDriver [(key, 0%nat)] [[Some (VFunction w)]]) rt wn hs trs)
  = Some (Normal
      (mkApp (mkDriver [(key, 0%nat)] [[Some (VFunction w)]])
             (apply_fn w args rt) wn hs trs)).
Proof.
  intros Hk. unfold app_trigger, trigger. rewrite (invalidateKey_None _ Hk).
  simpl. destruct (decide (key = key)) as [_|]; [|done]. reflexivity.
Qed.

Lemma mount_single key handler now n :
  ¬ invalid_key key →
  monitor_entry key handler (new_app now n)
  = match handler with
    | HFunction f =>
        Normal (mkApp (mkDriver [(key, 0%nat)] [[Some (VFunction f)]])
                      (fresh_runtime now n) 0
                      [mkHandle key (VFunction f)] [])
    | HConfig (VFunction callback) dd td =>
        let wn := match dd, td with Some _, Some _ => 1%nat | _, _ => 0%nat end in
        let '(w, rt) :=
          match positive_delay dd with
          | Some d => createDebouncedCallback callback d (fresh_runtime now n)
          | None =>
              match positive_delay td with
              | Some t => createThrottledCallback callback t (fresh_runtime now n)
              | None => (callback, fresh_runtime now n)
              end
          end in
        Normal (mkApp (mkDriver [(key, 0%nat)] [[Some (VFunction w)]]) rt wn
                      [mkHandle key (VFunction w)] [])
    | _ => Normal (warn (new_app now n))
    end.
Proof.
  intros Hk. pose proof (invalidateKey_None _ Hk) as Hv.
  unfold monitor_entry. unfold _invalidateKey in Hv.
  destruct (negb (truthy key) || negb (bool_decide (typeof key = TString)));
    [by destruct (printable key)|].
  assert (∀ f rt wn,
            subscribe_push key f (mkApp new_driver rt wn [] [])
            = Normal (mkApp (mkDriver [(key, 0%nat)] [[Some (VFunction f)]])
                            rt wn [mkHandle key (VFunction f)] [])) as Hpush.
  { intros f rt wn. unfold subscribe_push, subscribe.
    rewrite (invalidateKey_None _ Hk). reflexivity. }
  destruct handler as [f|callback dd td|]; [apply Hpush| |done].
  destruct callback; try done.
  destruct dd as [dd|], td as [td|]; simpl;
    repeat (destruct (_ >? 0)); simpl; apply Hpush.
Qed.

Lemma advance_nothing_due t n fs dl :
  advance t (mkRuntime t [] n fs dl) = mkRuntime t [] n fs dl.
Proof. unfold advance. simpl. by rewrite Z.max_id. Qed.

(** X13. When an entry asks for both a debounce (positive, and at most
    [TIMEOUT_MAX], the longest delay a timer takes) and a throttle, the
    handler is debounced: the effect warns once, a trigger delivers
    nothing at once, and the handler is called once, with the arguments
    of the trigger, when the debounce delay has passed. *)
Theorem debounce_takes_precedence (now : Z) (n : nat) (key : JsValue)
    (callback : nat) (dd td : Z) (args : list JsValue) :
  ¬ invalid_key key → 0 < dd → dd ≤ TIMEOUT_MAX →
  ∃ a1 a2,
    useMonitorEvent [(key, HConfig (VFunction callback) (Some dd) (Some td))]
                    (new_app now n) = Normal a1
    ∧ warnings a1 = 1%nat
    ∧ app_trigger key args a1 = Some (Normal a2)
    ∧ delivered (runtime a2) = []
    ∧ delivered (runtime (app_advance (now + dd) a2))
      = [(callback, now + dd, args)].
Proof.
  intros Hk Hd Hm. eexists. eexists. simpl useMonitorEvent.
  rewrite (mount_single _ _ _ _ Hk). simpl positive_delay.
  rewrite (proj2 (Z.gtb_lt _ _)) by lia.
  unfold createDebouncedCallback, fresh_runtime. simpl.
  split; [reflexivity|]. split; [reflexivity|].
  rewrite (app_trigger_single _ _ _ _ _ _ _ Hk).
  split; [reflexivity|]. simpl runtime.
  rewrite <- (advance_nothing_due now 0
                (replicate n FUser ++ [FDebounced callback dd None]) []).
  rewrite debounce_first by (done || lia). split; [done|].
  pose proof (debounce_fires (replicate n FUser) callback dd now args 0 1 []
                (now + dd) Hd (Z.le_refl _)) as Hfire.
  unfold app_advance, with_runtime.
  change (delivered
            (advance (now + dd)
               (debounce_armed (replicate n FUser) callback dd now args 0 1
                  []))
          = [(callback, now + dd, args)]).
  by rewrite Hfire.
Qed.

Lemma debounce_takes_precedence_witness :
  ¬ invalid_key (VString "k")
  ∧ 0 < 100
  ∧ 100 ≤ TIMEOUT_MAX
  ∧ ∃ a1 a2,
      useMonitorEvent
        [(VString "k", HConfig (VFunction 0) (Some 100) (Some 50))]
        (new_app 1000 1) = Normal a1
      ∧ warnings a1 = 1%nat
      ∧ app_trigger (VString "k") [VString "first"] a1 = Some (Normal a2)
      ∧ delivered (runtime a2) = []
      ∧ delivered (runtime (app_advance (1000 + 100) a2))
        = [(0%nat, 1000 + 100, [VString "first"])].
Proof.
  assert (100 ≤ TIMEOUT_MAX) as Hm by (unfold TIMEOUT_MAX; lia).
  split; [exact valid_k|]. split; [lia|]. split; [exact Hm|].
  apply (debounce_takes_precedence 1000 1 (VString "k") 0 100 50
           [VString "first"] valid_k); [lia | exact Hm].
Defined.

(** X14. A plain function handler, or a config object whose debounce and
    throttle are absent or not positive, is subscribed as it is: a
    trigger calls the handler at once with the arguments of the trigger
    and schedules no timer. *)
Theorem unwrapped_handler_called_at_once (now : Z) (n : nat)
    (key : JsValue) (callback : nat) (handler : Handler)
    (args : list JsValue) :
  ¬ invalid_key key →
  (handler = HFunction callback
   ∨ ∃ dd td, handler = HConfig (VFunction callback) dd td
              ∧ positive_delay dd = None ∧ positive_delay td = None) →
  ∃ a1 a2,
    useMonitorEvent [(key, handler)] (new_app now n) = Normal a1
    ∧ app_trigger key args a1 = Some (Normal a2)
    ∧ delivered (runtime a2) = [(callback, now, args)]
    ∧ timers (runtime a2) = [].
Proof.
  intros Hk Hh.
  assert (∃ wn, monitor_entry key handler (new_app now n)
                = Normal (mkApp (mkDriver [(key, 0%nat)]
                                   [[Some (VFunction callback)]])
                                (fresh_runtime now n) wn
                                [mkHandle key (VFunction callback)] []))
    as [wn Hm].
  { rewrite (mount_single _ _ _ _ Hk).
    destruct Hh as [->|(dd & td & -> & Hdd & Htd)]; [by eexists|].
    simpl. rewrite Hdd, Htd. by eexists. }
  eexists. eexists. simpl useMonitorEvent. rewrite Hm.
  split; [reflexivity|].
  rewrite (app_trigger_single _ _ _ _ _ _ _ Hk). split; [reflexivity|].
  simpl runtime. unfold apply_fn, fresh_runtime. simpl.
  destruct (replicate n FUser !! callback) as [fn|] eqn:E; [|done].
  apply lookup_replicate in E as [-> _]. done.
Qed.

Lemma unwrapped_handler_called_at_once_witness :
  ¬ invalid_key (VString "k")
  ∧ (HConfig (VFunction 0) (Some 0) None = HFunction 0
     ∨ ∃ dd td, HConfig (VFunction 0) (Some 0) None
                = HConfig (VFunction 0) dd td
                ∧ positive_delay dd = None ∧ positive_delay td = None)
  ∧ ∃ a1 a2,
      useMonitorEvent [(VString "k", HConfig (VFunction 0) (Some 0) None)]
                      (new_app 1000 1) = Normal a1
      ∧ app_trigger (VString "k") [VNumber 5] a1 = Some (Normal a2)
      ∧ delivered (runtime a2) = [(0%nat, 1000, [VNumber 5])]
      ∧ timers (runtime a2) = [].
Proof.
  assert (HConfig (VFunction 0) (Some 0) None = HFunction 0
          ∨ ∃ dd td, HConfig (VFunction 0) (Some 0) None
                     = HConfig (VFunction 0) dd td
                     ∧ positive_delay dd = None ∧ positive_delay td = None)
    as Hh.
  { right. exists (Some 0), None. repeat split. }
  split; [exact valid_k|]. split; [exact Hh|].
  exact (unwrapped_handler_called_at_once 1000 1 (VString "k") 0
           (HConfig (VFunction 0) (Some 0) None) [VNumber 5] valid_k Hh).
Defined.

(** * Further properties of the wrappers *)

(** ** Calls that are far apart *)






Lemma throttle_due_again fs callback delay t0 n dl t args :
  0 < delay → t0 + delay ≤ t →
  apply_fn (length fs) args
    (advance t (throttle_idle fs callback delay t0 n dl))
  = throttle_idle fs callback delay t n (dl ++ [(callback, t, args)]).
Proof.
  intros Hd Ht. unfold advance, throttle_idle. simpl.
  rewrite Z.max_r by lia. unfold apply_fn. simpl.
  rewrite lookup_last_fn. unfold throttled. simpl.
  rewrite (proj2 (Z.geb_le _ _)) by lia.
  unfold set_fn. simpl. by rewrite insert_last_fn.
Qed.

Lemma throttle_play_separated fs callback delay cs :
  0 < delay →
  ∀ t0 n dl,
    separated delay t0 cs →
    play (length fs) cs (throttle_idle fs callback delay t0 n dl)
    = throttle_idle fs callback delay (default t0 (last cs.*1)) n
        (dl ++ ((λ c, (callback, c.1, c.2)) <$> cs)).
Proof.
  intros Hd. induction cs as [|[t args] cs IH]; intros t0 n dl Hs.
  - simpl. by rewrite app_nil_r.
  - destruct Hs as [Ht Hs]. simpl play. rewrite throttle_due_again by done.
    rewrite IH by done. rewrite fmap_cons, last_default_cons.
    f_equal. by rewrite <- app_assoc.
Qed.

(** X16. Throttle is transparent for a slow caller: on a new wrapper
    (the clock being at least [delay]), when each call comes at least
    [delay] after the one before, every call is delivered at once, with
    its own arguments, and no timer is ever left scheduled. *)
Theorem throttle_delivers_separated_calls (rt0 : Runtime) (callback : nat)
    (delay t0 : Z) (args0 : list JsValue) (cs : list (Z * list JsValue)) :
  timers rt0 = [] → 0 < delay → clock rt0 ≤ t0 → delay ≤ t0 →
  separated delay t0 cs →
  delivered
    (play (createThrottledCallback callback delay rt0).1
          ((t0, args0) :: cs)
          (createThrottledCallback callback delay rt0).2)
  = delivered rt0 ++ ((λ c, (callback, c.1, c.2)) <$> (t0, args0) :: cs)
  ∧ timers
      (play (createThrottledCallback callback delay rt0).1
            ((t0, args0) :: cs)
            (createThrottledCallback callback delay rt0).2) = [].
Proof.
  intros Hq Hd Hc Ht Hs. destruct rt0 as [c0 q0 n0 fs dl]. simpl in Hq, Hc.
  subst q0. unfold createThrottledCallback.
  cbn [fst snd functions clock timers next_timer delivered play].
  rewrite throttle_first by done. rewrite throttle_play_separated by done.
  unfold throttle_idle. simpl. by rewrite <- app_assoc.
Qed.

Lemma throttle_delivers_separated_calls_witness :
  timers (fresh_runtime 1000 1) = []
  ∧ 0 < 100
  ∧ clock (fresh_runtime 1000 1) ≤ 1000
  ∧ 100 ≤ 1000
  ∧ separated 100 1000 [(1100, [VString "b"]); (1250, [VString "c"])]
  ∧ delivered
      (play (createThrottledCallback 0 100 (fresh_runtime 1000 1)).1
            [(1000, [VString "a"]); (1100, [VString "b"]);
             (1250, [VString "c"])]
            (createThrottledCallback 0 100 (fresh_runtime 1000 1)).2)
    = [(0%nat, 1000, [VString "a"]); (0%nat, 1100, [VString "b"]);
       (0%nat, 1250, [VString "c"])].
Proof.
  assert (separated 100 1000 [(1100, [VString "b"]); (1250, [VString "c"])])
    as Hs by (simpl; lia).
  split; [reflexivity|]. split; [lia|]. split; [simpl; lia|].
  split; [lia|]. split; [exact Hs|].
  exact (proj1 (throttle_delivers_separated_calls (fresh_runtime 1000 1) 0
                  100 1000 [VString "a"]
                  [(1100, [VString "b"]); (1250, [VString "c"])]
                  eq_refl ltac:(lia) ltac:(simpl; lia) ltac:(lia) Hs)).
Defined.

(** ** Any pattern of calls *)

Lemma spaced_snoc delay dl callback t args :
  spaced delay dl →
  Forall (λ x, x.1.2 + delay ≤ t) dl →
  spaced delay (dl ++ [(callback, t, args)]).
Proof.
  induction dl as [|x dl IH]; intros Hs Hf; [done|].
  destruct Hs as [Hx Hs]. apply Forall_cons in Hf as [Hxt Hf].
  simpl. split; [|by apply IH]. destruct dl as [|y dl]; [done|done].
Qed.

Lemma Forall_earlier (callback : nat) (bound bound' : Z)
    (dl : list (nat * Z * list JsValue)) :
  bound ≤ bound' →
  Forall (λ x, x.1.1 = callback ∧ x.1.2 ≤ bound) dl →
  Forall (λ x, x.1.1 = callback ∧ x.1.2 ≤ bound') dl.
Proof.
  intros Hb Hf. eapply Forall_impl; [exact Hf|].
  intros x [? ?]. split; [done|lia].
Qed.

Lemma Forall_before (callback : nat) (delay bound t : Z)
    (dl : list (nat * Z * list JsValue)) :
  bound + delay ≤ t →
  Forall (λ x, x.1.1 = callback ∧ x.1.2 ≤ bound) dl →
  Forall (λ x, x.1.2 + delay ≤ t) dl.
Proof.
  intros Hb Hf. eapply Forall_impl; [exact Hf|]. intros x [? ?]. lia.
Qed.






Lemma debounce_inv_advance fs callback delay T rt :
  0 < delay →
  debounce_inv fs callback delay rt →
  debounce_inv fs callback delay (advance T rt).
Proof.
  intros Hd [c n dl Hf Hs|c t id n args dl Hc Hf Hs].
  - unfold advance. simpl. constructor; [|done].
    eapply Forall_earlier; [|done]. lia.
  - unfold advance. simpl. destruct (Z.leb_spec (t + delay) T) as [HT|HT].
    + simpl. unfold fire, debounced_timeout. simpl.
      rewrite lookup_last_fn. simpl. rewrite filter_other_timer by done.
      rewrite filter_nil. unfold set_fn. simpl. rewrite insert_last_fn.
      replace (c `max` (t + delay)) with (t + delay) by lia.
      constructor.
      * apply Forall_app. split.
        -- eapply Forall_earlier; [|done]. lia.
        -- apply Forall_singleton. simpl. split; [done|lia].
      * apply spaced_snoc; [done|]. eapply Forall_before; [|done]. lia.
    + simpl. constructor; [lia|done|done].
Qed.

Lemma debounce_inv_apply fs callback delay args rt :
  0 < delay → delay ≤ TIMEOUT_MAX →
  debounce_inv fs callback delay rt →
  debounce_inv fs callback delay (apply_fn (length fs) args rt).
Proof.
  intros Hd Hm [c n dl Hf Hs|c t id n args' dl Hc Hf Hs].
  - unfold apply_fn. simpl. rewrite lookup_last_fn. unfold debounced. simpl.
    unfold set_fn. simpl. rewrite insert_last_fn, timer_delay_id by done.
    constructor; [lia|done|done].
  - unfold apply_fn. simpl. rewrite lookup_last_fn. unfold debounced. simpl.
    rewrite filter_other_timer by done. rewrite filter_nil.
    unfold set_fn. simpl. rewrite insert_last_fn, timer_delay_id by done.
    constructor; [lia| |done]. eapply Forall_earlier; [|done]. lia.
Qed.

Lemma debounce_inv_play fs callback delay cs :
  0 < delay → delay ≤ TIMEOUT_MAX →
  ∀ rt, debounce_inv fs callback delay rt →
        debounce_inv fs callback delay (play (length fs) cs rt).
Proof.
  intros Hd Hm. induction cs as [|[t args] cs IH]; intros rt Hrt; [done|].
  simpl. by apply IH, debounce_inv_apply, debounce_inv_advance.
Qed.

(** X18. Debounce limits the rate as well, for every pattern of calls:
    for a delay that a timer can take ([0 < delay ≤ TIMEOUT_MAX]),
    whatever calls a new wrapper receives, at whatever times, and however
    far time then advances, the calls it has delivered all went to the
    wrapped callback, any two consecutive ones are at least [delay]
    apart, and at most one timer is scheduled. *)
Theorem debounce_limits_rate (rt0 : Runtime) (callback : nat) (delay : Z)
    (cs : list (Z * list JsValue)) (T : Z) :
  timers rt0 = [] → delivered rt0 = [] → 0 < delay → delay ≤ TIMEOUT_MAX →
  spaced delay
    (delivered
       (advance T
          (play (createDebouncedCallback callback delay rt0).1 cs
                (createDebouncedCallback callback delay rt0).2)))
  ∧ Forall (λ x, x.1.1 = callback)
      (delivered
         (advance T
            (play (createDebouncedCallback callback delay rt0).1 cs
                  (createDebouncedCallback callback delay rt0).2)))
  ∧ (length
       (timers
          (advance T
             (play (createDebouncedCallback callback delay rt0).1 cs
                   (createDebouncedCallback callback delay rt0).2)))
     ≤ 1)%nat.
Proof.
  intros Hq Hdl Hd Hm. destruct rt0 as [c0 q0 n0 fs dl0]. simpl in Hq, Hdl.
  subst q0 dl0. unfold createDebouncedCallback.
  cbn [fst snd functions clock timers next_timer delivered].
  assert (debounce_inv fs callback delay
            (advance T
               (play (length fs) cs
                  (mkRuntime c0 [] n0
                     (fs ++ [FDebounced callback delay None]) [])))) as H.
  { apply debounce_inv_advance, debounce_inv_play; [done..|].
    by constructor. }
  destruct H as [c n dl Hf Hs|c t id n args dl Hc Hf Hs]; simpl;
    (split; [done|]); (split; [|lia]);
    eapply Forall_impl; [exact Hf | by intros x [? _] | exact Hf
                         | by intros x [? _]].
Qed.

Lemma debounce_limits_rate_witness :
  timers (fresh_runtime 1000 1) = []
  ∧ delivered (fresh_runtime 1000 1) = []
  ∧ 0 < 100
  ∧ 100 ≤ TIMEOUT_MAX
  ∧ spaced 100
      (delivered
         (advance 2000
            (play (createDebouncedCallback 0 100 (fresh_runtime 1000 1)).1
                  [(1000, [VString "a"]); (1001, [VString "b"]);
                   (1150, [VString "c"]); (1160, [VString "d"])]
                  (createDebouncedCallback 0 100 (fresh_runtime 1000 1)).2))).
Proof.
  assert (100 ≤ TIMEOUT_MAX) as Hm by (unfold TIMEOUT_MAX; lia).
  split; [reflexivity|]. split; [reflexivity|]. split; [lia|].
  split; [exact Hm|].
  exact (proj1 (debounce_limits_rate (fresh_runtime 1000 1) 0 100
                  [(1000, [VString "a"]); (1001, [VString "b"]);
                   (1150, [VString "c"]); (1160, [VString "d"])] 2000
                  eq_refl eq_refl ltac:(lia) Hm)).
Defined.

(** * Listeners that remove themselves during a dispatch *)

Lemma values_lookup_unique (s : JSSet.SetData) :
  NoDup (JSSet.values s) →
  ∀ i j v, s !! i = Some (Some v) → s !! j = Some (Some v) → i = j.
Proof.
  induction s as [|e s IH]; intros Hnd i j v Hi Hj; [done|].
  assert (NoDup (JSSet.values s)
          ∧ ∀ n, e = Some v → s !! n = Some (Some v) → False) as [Hnd' Hno].
  { destruct e as [x|]; simpl in Hnd.
    - apply NoDup_cons in Hnd as [Hx Hnd']. split; [done|].
      intros n [= ->] Hn. apply Hx, values_elem.
      by eapply list_elem_of_lookup_2.
    - split; [done|]. by intros n ?. }
  destruct i as [|i], j as [|j]; simpl in Hi, Hj.
  - done.
  - injection Hi as ->. by destruct (Hno j).
  - injection Hj as ->. by destruct (Hno i).
  - f_equal. by eapply IH.
Qed.

Lemma delete_lookup_other (s : JSSet.SetData) i j v :
  NoDup (JSSet.values s) → s !! i = Some (Some v) → j ≠ i →
  JSSet.delete s v !! j = s !! j.
Proof.
  intros Hnd Hi Hne. unfold JSSet.delete. rewrite list_lookup_fmap.
  destruct (s !! j) as [e|] eqn:Hj; [|done]. simpl. f_equal.
  case_decide as E; [|done]. subst e. exfalso. apply Hne.
  by eapply values_lookup_unique.
Qed.

Lemma take_snoc_elem (s : JSSet.SetData) i e c :
  s !! i = Some e →
  Some c ∈ take (S i) s ↔ Some c ∈ take i s ∨ e = Some c.
Proof.
  intros Hi. rewrite (take_S_r _ _ _ Hi), elem_of_app, list_elem_of_singleton.
  split; (intros [?|?]; [by left | by right]).
Qed.

Lemma once_inv_start env key args d l :
  wf d → sets_ok d → JSMap.get (listeners d) key = Some l →
  once_inv env key args d l 0 (mkDispatch d [] [] []).
Proof.
  intros Hwf Hok G. pose proof (get_Some_elem _ _ _ G) as Hin.
  destruct (wf_live _ Hwf _ _ Hin) as [Hlt _].
  split; simpl; try done; [lia | by left |].
  intros k c. split; [|tauto]. intros Hreg. split; [done|].
  intros [_ [Hm _]]. by apply elem_of_nil in Hm.
Qed.

Lemma once_inv_skip env key args d l i st :
  once_inv env key args d l i st →
  deref (sets d) l !! i = Some None →
  once_inv env key args d l (S i) st.
Proof.
  intros [Hi Hwf Hok Hal Hlen Hah Hkey Hcalls Hreg] E.
  pose proof (lookup_lt_Some _ _ _ E) as Hlt.
  split; try done.
  - intros j Hj. apply Hah. lia.
  - rewrite Hcalls, (take_S_r _ _ _ E), values_app. simpl.
    by rewrite app_nil_r.
  - intros k c. rewrite Hreg. unfold removed_itself.
    rewrite (take_snoc_elem _ _ _ _ E). split.
    + intros [Hr Hno]. split; [done|]. intros [-> [[Hm|?] Hf]]; [|done].
      by apply Hno.
    + intros [Hr Hno]. split; [done|]. intros [-> [Hm Hf]].
      apply Hno. split; [done|]. split; [by left|done].
Qed.

Lemma once_inv_call env key args d l i st f :
  wf d → sets_ok d →
  self_removing env key args (deref (sets d) l) →
  once_inv env key args d l i st →
  deref (sets d) l !! i = Some (Some (VFunction f)) →
  once_inv env key args d l (S i)
           (on_listener env key args (VFunction f) st).
Proof.
  intros Hwf0 Hok0 Hself [Hi Hwf Hok Hal Hlen Hah Hkey Hcalls Hreg] E.
  pose proof (lookup_lt_Some _ _ _ E) as Hlt.
  assert (deref (sets (driver st)) l !! i = Some (Some (VFunction f))) as Ecur.
  { by rewrite Hah. }
  assert (callees (invoked (on_listener env key args (VFunction f) st))
          = (λ c, (c, args)) <$>
              JSSet.values (take (S i) (deref (sets d) l))) as Hcalls'.
  { unfold callees in *. rewrite on_listener_invoked, fmap_app, Hcalls.
    rewrite (take_S_r _ _ _ E), values_app, fmap_app. done. }
  destruct (Hself f) as [Hact|Hact]; [by eapply list_elem_of_lookup_2| |].
  - (* the listener leaves the registry alone *)
    assert (driver (on_listener env key args (VFunction f) st) = driver st)
      as Hd.
    { rewrite on_listener_driver. simpl. by rewrite Hact. }
    split; rewrite ?Hd; try done.
    + intros j Hj. apply Hah. lia.
    + intros k c. rewrite Hreg. unfold removed_itself.
      rewrite (take_snoc_elem _ _ _ _ E). split.
      * intros [Hr Hno]. split; [done|].
        intros [-> [[Hm|[= <-]] (f' & Hc & Hne)]].
        -- apply Hno. split; [done|]. split; [done|]. eauto.
        -- injection Hc as <-. done.
      * intros [Hr Hno]. split; [done|]. intros [-> [Hm Hf]].
        apply Hno. split; [done|]. split; [by left|done].
  - (* the listener calls its own unsubscribe handle *)
    set (h := mkHandle key (VFunction f)).
    assert (driver (on_listener env key args (VFunction f) st)
            = unsubscribe h (driver st)) as Hd.
    { rewrite on_listener_driver. simpl. by rewrite Hact. }
    assert (JSMap.get (listeners (driver st)) key = Some l) as G.
    { destruct Hkey as [G|Hno]; [done|]. exfalso.
      apply (Hno (VFunction f)). by eapply list_elem_of_lookup_2. }
    destruct (sets_ok_deref _ _ Hok Hal) as [Hnd _].
    assert (sets (unsubscribe h (driver st))
            = alter (λ s, JSSet.delete s (VFunction f)) l (sets (driver st)))
      as Hsets.
    { unfold unsubscribe. simpl. rewrite G. by destruct (JSSet.size _ =? 0). }
    assert (deref (sets (unsubscribe h (driver st))) l
            = JSSet.delete (deref (sets (driver st)) l) (VFunction f))
      as Hset.
    { rewrite Hsets. by apply deref_alter_eq. }
    split; rewrite ?Hd; try done.
    + by apply wf_unsubscribe.
    + by apply sets_ok_unsubscribe.
    + by rewrite Hsets, length_alter.
    + rewrite Hset. unfold JSSet.delete. by rewrite length_fmap.
    + intros j Hj. rewrite Hset.
      rewrite (delete_lookup_other _ i j) by (done || lia).
      apply Hah. lia.
    + unfold unsubscribe. simpl. rewrite G.
      fold h. change (h_callback h) with (VFunction f).
      rewrite <- Hsets, Hset.
      destruct (JSSet.size _ =? 0) eqn:Hz; simpl.
      * right. intros v Hv. apply Z.eqb_eq in Hz.
        assert (0 < JSSet.size
                      (JSSet.delete (deref (sets (driver st)) l)
                         (VFunction f))); [|lia].
        apply size_pos_iff. exists v. rewrite <- Hset. done.
      * by left.
    + intros k c. rewrite unsubscribe_registered by done. simpl.
      rewrite Hreg. unfold removed_itself.
      rewrite (take_snoc_elem _ _ _ _ E). split.
      * intros [[Hr Hno] Hne]. split; [done|].
        intros [-> [[Hm|[= <-]] Hf]]; [|done].
        apply Hno. split; [done|]. split; [done|done].
      * intros [Hr Hno]. split; [split; [done|]|].
        -- intros [-> [Hm Hf]]. apply Hno. split; [done|].
           split; [by left|done].
        -- intros [= -> ->]. apply Hno. split; [done|].
           split; [by right|]. exists f. split; [done|]. by rewrite Hact.
Qed.

Lemma once_loop env key args d l :
  wf d → sets_ok d → (l < length (sets d))%nat →
  self_removing env key args (deref (sets d) l) →
  ∀ n i st fuel,
    (length (deref (sets d) l) - i ≤ n)%nat →
    (n < fuel)%nat →
    once_inv env key args d l i st →
    ∃ st', forEach fuel env key args l i st = Some st'
           ∧ once_inv env key args d l (length (deref (sets d) l)) st'.
Proof.
  intros Hwf Hok Hal Hself.
  induction n as [|n IH]; intros i st fuel Hn Hfuel Hinv;
    (destruct fuel as [|fuel]; [lia|]); simpl.
  - assert (i = length (deref (sets d) l)) as ->.
    { pose proof (once_index _ _ _ _ _ _ _ Hinv). lia. }
    rewrite lookup_ge_None_2; [by exists st|].
    rewrite (once_length _ _ _ _ _ _ _ Hinv). lia.
  - destruct (deref (sets d) l !! i) as [e|] eqn:E.
    + rewrite (once_ahead _ _ _ _ _ _ _ Hinv i), E by lia.
      pose proof (lookup_lt_Some _ _ _ E) as Hlt.
      destruct e as [callback|].
      * assert (∃ f, callback = VFunction f) as [f ->].
        { destruct (sets_ok_deref _ _ Hok Hal) as [_ Hfn].
          assert (typeof callback = TFunction) as Ht.
          { apply Hfn. by eapply list_elem_of_lookup_2. }
          destruct callback; try discriminate. eauto. }
        apply IH; [lia|lia|]. by apply once_inv_call.
      * apply IH; [lia|lia|]. by apply once_inv_skip.
    + apply lookup_ge_None in E.
      pose proof (once_index _ _ _ _ _ _ _ Hinv).
      rewrite lookup_ge_None_2;
        [|rewrite (once_length _ _ _ _ _ _ _ Hinv); lia].
      exists st. split; [done|].
      by replace (length (deref (sets d) l)) with i by lia.
Qed.

(** X19. Listeners may remove themselves while they are called: when
    every listener of the key either leaves the registry alone or calls
    its own unsubscribe handle, a [trigger] still calls every listener
    registered at trigger time, in insertion order, each once; afterwards
    exactly the listeners that removed themselves are gone, and no other
    registration has changed. *)
Theorem self_removing_listeners_all_run (ops : list Action) (key : JsValue)
    (l : nat) (env : Env) (args : list JsValue) (fuel : nat) :
  ¬ invalid_key key →
  JSMap.get (listeners (run ops)) key = Some l →
  self_removing env key args (deref (sets (run ops)) l) →
  (length (deref (sets (run ops)) l) < fuel)%nat →
  ∃ r, trigger fuel env (run ops) key args = Some (Normal r)
       ∧ callees (calls r)
         = (λ c, (c, args)) <$> JSSet.values (deref (sets (run ops)) l)
       ∧ NoDup (callees (calls r))
       ∧ ∀ k c, registered (after r) k c
                ↔ registered (run ops) k c
                  ∧ ¬ (k = key
                       ∧ ∃ f, c = VFunction f ∧ actions (env f args) ≠ []).
Proof.
  intros Hk G Hself Hfuel. pose proof (wf_run ops) as Hwf.
  pose proof (sets_ok_run ops) as Hok. set (d := run ops) in *.
  pose proof (get_Some_elem _ _ _ G) as Hin.
  destruct (wf_live _ Hwf _ _ Hin) as [Hal _].
  destruct (once_loop env key args d l Hwf Hok Hal Hself
              (length (deref (sets d) l)) 0 (mkDispatch d [] [] []) fuel)
    as (st & Hrun & Hinv); [lia | done | by apply once_inv_start |].
  unfold trigger. rewrite (invalidateKey_None _ Hk), G, Hrun.
  eexists. split; [done|]. simpl.
  pose proof (once_calls _ _ _ _ _ _ _ Hinv) as Hcalls.
  rewrite firstn_all in Hcalls. split; [done|]. split.
  - rewrite Hcalls. apply NoDup_fmap_2; [by intros ?? [= ->]|].
    by destruct (sets_ok_deref _ _ Hok Hal).
  - intros k c. rewrite (once_registered _ _ _ _ _ _ _ Hinv k c).
    rewrite firstn_all. unfold removed_itself. split.
    + intros [Hr Hno]. split; [done|]. intros [-> Hf]. apply Hno.
      split; [done|]. split; [|done]. destruct Hr as (l' & G' & Hm).
      by assert (l' = l) as -> by congruence.
    + intros [Hr Hno]. split; [done|]. intros [-> [_ Hf]]. by apply Hno.
Qed.

Lemma self_removing_listeners_all_run_witness :
  ¬ invalid_key (VString "k")
  ∧ JSMap.get (listeners two_listeners) (VString "k") = Some 0%nat
  ∧ self_removing first_removes_itself (VString "k") []
                  (deref (sets two_listeners) 0)
  ∧ (length (deref (sets two_listeners) 0) < 3)%nat
  ∧ ∃ r, trigger 3 first_removes_itself two_listeners (VString "k") []
         = Some (Normal r)
         ∧ callees (calls r)
           = (λ c, (c, [])) <$> JSSet.values (deref (sets two_listeners) 0)
         ∧ NoDup (callees (calls r))
         ∧ ∀ k c, registered (after r) k c
                  ↔ registered two_listeners k c
                    ∧ ¬ (k = VString "k"
                         ∧ ∃ f, c = VFunction f
                                ∧ actions (first_removes_itself f []) ≠ []).
Proof.
  assert (self_removing first_removes_itself (VString "k") []
            (deref (sets two_listeners) 0)) as Hself.
  { intros f _. unfold first_removes_itself.
    destruct (decide (f = 1%nat)) as [->|]; [by right | by left]. }
  split; [exact valid_k|]. split; [reflexivity|]. split; [exact Hself|].
  split; [simpl; lia|].
  apply (self_removing_listeners_all_run
           [ASubscribe (VString "k") (VFunction 1);
            ASubscribe (VString "k") (VFunction 2)]
           (VString "k") 0 first_removes_itself [] 3 valid_k eq_refl Hself).
  simpl; lia.
Defined.
